(** * gpmd: a small RPC runtime (server, client, discovery, registry)

    Shallow embedding of the Go sources and the properties checked on it.

    Conventions of the embedding:
    - Go [int], [uint64], [time.Duration] and [time.Time] are integers in [Z];
      a [time.Time] is a number of nanoseconds on one time line, and where the
      source can wrap around (the [uint64] counters) the wrap-around is
      written out;
    - a Go [error] is its text: [option string], [None] for [nil];
    - Go maps are [gmap]s; a map of pointers owned by a single structure is a
      map of values;
    - every reading of [time.Now()], every result of the network, of the codec
      and of the scheduler is an explicit argument of the function that
      consumes it. *)

From Stdlib Require Import ZArith Lia Bool List Ascii String Sorted Permutation.
From stdpp Require Import base option list relations gmap strings sorting.
Import ListNotations.

Set Warnings "-register-all".

Local Open Scope string_scope.
Local Open Scope list_scope.
Local Open Scope Z_scope.

(** ** Go: integers and calls that may panic *)

Module go.

(** Go's [int] on the 64-bit targets: two's complement wrap-around. *)
Definition int_wrap (z : Z) : Z := (z + 2 ^ 63) mod 2 ^ 64 - 2 ^ 63.

(** Go's [uint64]. *)
Definition uint64_wrap (z : Z) : Z := z mod 2 ^ 64.

Definition MaxInt : Z := 2 ^ 63 - 1.
Definition MaxInt32 : Z := 2147483647.

(** A call that returns, panics, or ends the process ([log.Fatalf]). *)
Inductive outcome (A : Type) : Type :=
  | Ret (a : A)
  | Panic (msg : string)
  | Fatal (msg : string).
Arguments Ret {A} a.
Arguments Panic {A} msg.
Arguments Fatal {A} msg.

Definition bind {A B} (x : outcome A) (f : A → outcome B) : outcome B :=
  match x with
  | Ret a => f a
  | Panic msg => Panic msg
  | Fatal msg => Fatal msg
  end.

(** [s[i]] on a slice: a run-time panic outside [0 <= i < len(s)]. *)
Definition slice_index {A} (s : list A) (i : Z) : outcome A :=
  if i <? 0 then Panic "index out of range"
  else match s !! Z.to_nat i with
       | Some x => Ret x
       | None => Panic "index out of range"
       end.

End go.

#[global] Instance outcome_bind : MBind go.outcome :=
  λ A B f x, go.bind x f.

(** ** Strings: the parts of package [strings] and [sort] the sources use *)

Module strings.

(** Byte-wise lexicographic order, the order of Go's [<] on strings. *)
Definition le (a b : string) : Prop := String.leb a b = true.

#[global] Instance le_dec : RelDecision le.
Proof. intros a b. unfold le. apply _. Defined.

(** [strings.Join(elems, sep)]. *)
Definition Join (elems : list string) (sep : string) : string :=
  String.concat sep elems.

(** [strings.LastIndex(s, ".")]: byte index of the last ['.'], [-1] if none.
    The scan runs from the left and remembers the last hit. *)
Fixpoint LastIndex_dot_from (i : Z) (last : Z) (s : string) : Z :=
  match s with
  | EmptyString => last
  | String c rest =>
      LastIndex_dot_from (i + 1) (if Ascii.eqb c "."%char then i else last) rest
  end.

Definition LastIndex_dot (s : string) : Z := LastIndex_dot_from 0 (-1) s.

(** [s[:n]] and [s[n:]] for [0 <= n <= len(s)]. *)
Definition slice_to (s : string) (n : Z) : string :=
  String.substring 0 (Z.to_nat n) s.

Definition slice_from (s : string) (n : Z) : string :=
  String.substring (Z.to_nat n) (String.length s - Z.to_nat n) s.

(** [strings.Contains(s, substr)]. *)
Fixpoint Contains (s substr : string) : bool :=
  String.prefix substr s ||
  match s with
  | EmptyString => false
  | String _ rest => Contains rest substr
  end.

(** [strings.Split(s, ",")]: the pieces between the commas; one empty
    piece for the empty string. *)
Fixpoint Split_comma (s : string) : list string :=
  match s with
  | EmptyString => [EmptyString]
  | String c rest =>
      if Ascii.eqb c ","%char then EmptyString :: Split_comma rest
      else match Split_comma rest with
           | x :: xs => String c x :: xs
           | [] => [String c EmptyString]
           end
  end.

(** The white space of [strings.TrimSpace] on ASCII strings: tab, line
    feed, vertical tab, form feed, carriage return, space. *)
Definition isSpace (c : ascii) : bool :=
  let n := nat_of_ascii c in
  ((9 <=? n)%nat && (n <=? 13)%nat) || (n =? 32)%nat.

Fixpoint TrimLeft_space (s : string) : string :=
  match s with
  | EmptyString => EmptyString
  | String c rest => if isSpace c then TrimLeft_space rest else s
  end.

Fixpoint TrimRight_space (s : string) : string :=
  match s with
  | EmptyString => EmptyString
  | String c rest =>
      match TrimRight_space rest with
      | EmptyString => if isSpace c then EmptyString else String c EmptyString
      | rest' => String c rest'
      end
  end.

(** [strings.TrimSpace] (strings are ASCII here). *)
Definition TrimSpace (s : string) : string :=
  TrimRight_space (TrimLeft_space s).

End strings.

Module sort.

(** [sort.Strings]: the sources only read the sorted slice, and a total
    order has one sorted arrangement of a list (see [Strings_unique]), so any
    correct sorting function models it. *)
Definition Strings (x : list string) : list string :=
  merge_sort strings.le x.

End sort.

(** ** Package [registry] *)

Module registry.

Record ServerItem := mkServerItem {
  Addr : string;
  start : Z
}.

Record Registry := mkRegistry {
  timeout : Z;
  servers : gmap string ServerItem
}.

Definition Minute : Z := 60 * 1000000000.
Definition defaultTimeout : Z := Minute * 5.

Definition New (timeout : Z) : Registry :=
  {| timeout := timeout; servers := ∅ |}.

Definition DefaultRegistry : Registry := New defaultTimeout.

(** [time.Time.Add] and [time.Time.After]. *)
Definition Time_Add (t d : Z) : Z := t + d.
Definition Time_After (t u : Z) : bool := u <? t.

(** [putServer]; [now] is the reading of [time.Now()]. *)
Definition putServer (now : Z) (addr : string) (r : Registry) : Registry :=
  match servers r !! addr with
  | None =>
      {| timeout := timeout r;
         servers := <[addr := {| Addr := addr; start := now |}]> (servers r) |}
  | Some s =>
      {| timeout := timeout r;
         servers := <[addr := {| Addr := Addr s; start := now |}]> (servers r) |}
  end.

(** The test of the loop in [aliveServers]. *)
Definition alive (timeout : Z) (s : ServerItem) (now : Z) : bool :=
  (timeout =? 0) || Time_After (Time_Add (start s) timeout) now.

(** One iteration of the loop of [aliveServers]; [clock addr] is the reading
    of [time.Now()] taken while the loop visits [addr] (every key is visited
    once). *)
Definition aliveServers_iter (timeout : Z) (clock : string → Z)
    (acc : list string * gmap string ServerItem) (e : string * ServerItem)
    : list string * gmap string ServerItem :=
  if alive timeout e.2 (clock e.1)
  then (acc.1 ++ [e.1], acc.2)
  else (acc.1, delete e.1 acc.2).

(** [aliveServers]: the sorted alive addresses and the purged registry. The
    loop ranges over the entries the map had on entry, in an order the
    language leaves open; [map_to_list] fixes one. *)
Definition aliveServers (clock : string → Z) (r : Registry)
    : list string * Registry :=
  let res := fold_left (aliveServers_iter (timeout r) clock)
                       (map_to_list (servers r)) ([], servers r) in
  (sort.Strings res.1, {| timeout := timeout r; servers := res.2 |}).

(** [net/http]: a request is its method and its headers, a response writer
    is the status code written (if any) and its headers. Header names are
    kept in the one spelling the sources use. *)
Record Request := mkRequest {
  Method : string;
  Header : gmap string string
}.

Record ResponseWriter := mkResponseWriter {
  status : option Z;
  wHeader : gmap string string
}.

Definition Header_Get (h : gmap string string) (key : string) : string :=
  default "" (h !! key).

Definition WriteHeader (code : Z) (w : ResponseWriter) : ResponseWriter :=
  {| status := Some (default code (status w)); wHeader := wHeader w |}.

Definition Header_Set (key value : string) (w : ResponseWriter) : ResponseWriter :=
  {| status := status w; wHeader := <[key := value]> (wHeader w) |}.

(** The status the client sees: 200 when the handler wrote none. *)
Definition StatusCode (w : ResponseWriter) : Z := default 200 (status w).

Definition StatusInternalServerError : Z := 500.
Definition StatusMethodNotAllowed : Z := 405.

Definition ServeHTTP (clock : string → Z) (w : ResponseWriter) (req : Request)
    (r : Registry) : ResponseWriter * Registry :=
  if String.eqb (Method req) "GET" then
    let res := aliveServers clock r in
    (Header_Set "X-GPMD-SERVERS" (strings.Join res.1 ",") w, res.2)
  else if String.eqb (Method req) "POST" then
    let addr := Header_Get (Header req) "X-GPMD-SERVERS" in
    if String.eqb addr "" then (WriteHeader StatusInternalServerError w, r)
    else (w, putServer (clock addr) addr r)
  else (WriteHeader StatusMethodNotAllowed w, r).

(** [Heartbeat(registry, addr, duration)]. The interval of the ticker: *)
Definition Heartbeat_interval (duration : Z) : Z :=
  if duration =? 0 then defaultTimeout - 1 * Minute else duration.



End registry.

(** ** Package [xclient]: discovery and load balancing *)

Module xclient.
Import go.

Definition SelectMode := Z.
Definition RandomSelect : SelectMode := 0.
Definition RoundRobinSelect : SelectMode := 1.

(** The generator [r] is left out of the record: the value each call of
    [r.Intn] returns is an argument of the function that makes the call. *)
Record MultiServerDiscovery := mkMultiServerDiscovery {
  servers : list string;
  index : Z
}.

(** [seed] is the value of [d.r.Intn(math.MaxInt32 - 1)]. *)
Definition NewMultiServerDiscovery (servers : list string) (seed : Z)
    : MultiServerDiscovery :=
  {| servers := servers; index := seed |}.

Definition Update (servers : list string) (d : MultiServerDiscovery)
    : MultiServerDiscovery :=
  {| servers := servers; index := index d |}.

(** [Get]; [rnd] is the value of [d.r.Intn(n)] in the random mode. The
    result is the pair the source returns, with the discovery it leaves. *)
Definition Get (rnd : Z) (mode : SelectMode) (d : MultiServerDiscovery)
    : outcome ((string * option string) * MultiServerDiscovery) :=
  let n := Z.of_nat (length (servers d)) in
  if n =? 0 then Ret (("", Some "rpc discovery: no available servers"), d)
  else if mode =? RandomSelect then
    match slice_index (servers d) rnd with
    | Ret s => Ret ((s, None), d)
    | Panic msg => Panic msg
    | Fatal msg => Fatal msg
    end
  else if mode =? RoundRobinSelect then
    match slice_index (servers d) (Z.rem (index d) n) with
    | Ret s =>
        Ret ((s, None),
             {| servers := servers d;
                index := Z.rem (int_wrap (index d + 1)) n |})
    | Panic msg => Panic msg
    | Fatal msg => Fatal msg
    end
  else Ret (("", Some "rpc discovery: not supported select mode"), d).

(** [k] consecutive calls [Get(RoundRobinSelect)] with no [Update] between
    them: the addresses returned, in order, and the discovery left. A call
    that fails or panics ends the run. *)
Fixpoint Gets (k : nat) (d : MultiServerDiscovery)
    : option (list string * MultiServerDiscovery) :=
  match k with
  | O => Some ([], d)
  | S k' =>
      match Get 0 RoundRobinSelect d with
      | Ret ((s, None), d') =>
          match Gets k' d' with
          | Some (l, d'') => Some (s :: l, d'')
          | None => None
          end
      | _ => None
      end
  end.

(** [MultiServerDiscovery.Refresh] and [MultiServerDiscovery.GetAll]; the
    latter returns a copy of the list. *)
Definition Refresh (d : MultiServerDiscovery)
    : option string * MultiServerDiscovery :=
  (None, d).

Definition GetAll (d : MultiServerDiscovery) : list string * option string :=
  (servers d, None).

(** [GpmdRegistryDiscovery]; [embedded] is the [MultiServerDiscovery] it
    embeds, which nothing else refers to. *)
Record GpmdRegistryDiscovery := mkGpmdRegistryDiscovery {
  embedded : MultiServerDiscovery;
  registry : string;
  timeout : Z;
  lastUpdate : Z
}.

Definition Second : Z := 1000000000.
Definition defaultUpdateDuration : Z := Second * 10.

(** The zero [time.Time]: January 1 of year 1, in nanoseconds before the
    Unix epoch. *)
Definition zeroTime : Z := - 62135596800 * Second.

Definition NewGpmdRegistryDiscovery (registerAddr : string) (timeout : Z)
    (seed : Z) : GpmdRegistryDiscovery :=
  {| embedded := NewMultiServerDiscovery [] seed;
     registry := registerAddr;
     timeout := if timeout =? 0 then defaultUpdateDuration else timeout;
     lastUpdate := zeroTime |}.

(** [GpmdRegistryDiscovery.Update]; [now] is the reading of [time.Now()]. *)
Definition Gpmd_Update (now : Z) (servers : list string)
    (d : GpmdRegistryDiscovery) : GpmdRegistryDiscovery :=
  {| embedded := {| servers := servers; index := index (embedded d) |};
     registry := registry d; timeout := timeout d; lastUpdate := now |}.

(** The loop of [Refresh] over the pieces of the header. *)
Definition Refresh_iter (acc : list string) (server : string) : list string :=
  if negb (String.eqb (strings.TrimSpace server) "")
  then acc ++ [strings.TrimSpace server]
  else acc.

Definition Refresh_servers (hdr : string) : list string :=
  fold_left Refresh_iter (strings.Split_comma hdr) [].

(** [GpmdRegistryDiscovery.Refresh]; [now] and [now'] are the two readings
    of [time.Now()], [fetched] is the result of [http.Get(d.registry)]: the
    headers of the response, or an error. *)
Definition Gpmd_Refresh (now now' : Z) (fetched : gmap string string + string)
    (d : GpmdRegistryDiscovery) : option string * GpmdRegistryDiscovery :=
  if registry.Time_After (registry.Time_Add (lastUpdate d) (timeout d)) now
  then (None, d)
  else match fetched with
       | inr err => (Some err, d)
       | inl hdrs =>
           (None,
            {| embedded :=
                 {| servers := Refresh_servers
                                 (registry.Header_Get hdrs "X-GPMD-SERVERS");
                    index := index (embedded d) |};
               registry := registry d; timeout := timeout d;
               lastUpdate := now' |})
       end.

(** [GpmdRegistryDiscovery.Get] and [GpmdRegistryDiscovery.GetAll]. *)
Definition Gpmd_Get (now now' : Z) (fetched : gmap string string + string)
    (rnd : Z) (mode : SelectMode) (d : GpmdRegistryDiscovery)
    : outcome ((string * option string) * GpmdRegistryDiscovery) :=
  match Gpmd_Refresh now now' fetched d with
  | (Some err, d') => Ret (("", Some err), d')
  | (None, d') =>
      r ← Get rnd mode (embedded d');
      Ret (r.1, {| embedded := r.2; registry := registry d';
                   timeout := timeout d'; lastUpdate := lastUpdate d' |})
  end.

Definition Gpmd_GetAll (now now' : Z) (fetched : gmap string string + string)
    (d : GpmdRegistryDiscovery)
    : (list string * option string) * GpmdRegistryDiscovery :=
  match Gpmd_Refresh now now' fetched d with
  | (Some err, d') => (([], Some err), d')
  | (None, d') => (GetAll (embedded d'), d')
  end.

End xclient.

(** ** Package [codec] *)

Module codec.

Record Header := mkHeader {
  ServiceMethod : string;
  Seq : Z;
  Error : string
}.

Definition GobType : string := "application/gob".
Definition JsonType : string := "application/json".

(** [NewCodecFuncMap] after [init]: the constructors by codec type; only the
    entry is of interest, a constructor is named by its identifier. *)
Definition NewCodecFuncMap : gmap string string :=
  {[ GobType := "NewGobCodec" ]}.

End codec.

(** ** Package [reflect] and [go/ast], as far as the sources use them *)

Module reflect.
Import go.

Inductive Kind :=
  | Invalid | Bool | Int | Int8 | Int16 | Int32 | Int64
  | Uint | Uint8 | Uint16 | Uint32 | Uint64 | Uintptr
  | Float32 | Float64 | Complex64 | Complex128
  | Array | Chan | Func_ | Interface | Map | Pointer | Slice
  | String_ | Struct | UnsafePointer.

(** A type: its name (empty for an unnamed type), the path of the package
    that defines it (empty for a predeclared or unnamed type), its kind and,
    for the kinds that have one, its element type. *)
Inductive Type_ :=
  mkType (Name PkgPath : string) (kind : Kind) (elem : option Type_).

Definition Name (t : Type_) : string := let 'mkType n _ _ _ := t in n.
Definition PkgPath (t : Type_) : string := let 'mkType _ p _ _ := t in p.
Definition kind (t : Type_) : Kind := let 'mkType _ _ k _ := t in k.
Definition elem (t : Type_) : option Type_ := let 'mkType _ _ _ e := t in e.

#[global] Instance Kind_eq_dec : EqDecision Kind.
Proof. intros x y. unfold Decision. decide equality. Defined.

Fixpoint Type_eqb (t u : Type_) : bool :=
  let 'mkType n p k e := t in
  let 'mkType n' p' k' e' := u in
  String.eqb n n' && String.eqb p p' && bool_decide (k = k') &&
  match e, e' with
  | Some a, Some b => Type_eqb a b
  | None, None => true
  | _, _ => false
  end.

(** [Type.Elem]: panics unless the kind is Array, Chan, Map, Pointer or
    Slice. *)
Definition Type_Elem (t : Type_) : outcome Type_ :=
  match kind t, elem t with
  | (Array | Chan | Map | Pointer | Slice), Some e => Ret e
  | _, _ => Panic "reflect: Elem of invalid type"
  end.

(** Values, as far as the runtime looks into them. [VZero t] is the zero
    value of type [t]; [VPtr v] is a pointer to a variable that holds [v]
    and that nothing else refers to. *)
Inductive Value :=
  | VZero (t : Type_)
  | VInt (z : Z)
  | VString (s : string)
  | VStruct (fields : list Value)
  | VMap (entries : list (Value * Value))
  | VSlice (elems : list Value)
  | VPtr (target : Value).

(** [reflect.New(t)]: a pointer to a new zero value of [t]. *)
Definition New (t : Type_) : Value := VPtr (VZero t).

(** A function type and a method of a method set. [Func] is the method as
    called with receiver, argument and reply: it yields what the reply
    pointer refers to afterwards and the error returned. *)
Record FuncType := mkFuncType {
  In : list Type_;
  Out : list Type_
}.

Record Method := mkMethod {
  MName : string;
  MType : FuncType;
  Func : Value → Value → Value → Value * option string
}.

(** The predeclared interface type [error]. *)
Definition errorType : Type_ := mkType "error" "" Interface None.

(** [ast.IsExported]: the name begins with an upper-case letter (names are
    ASCII here). *)
Definition IsExported (name : string) : bool :=
  match name with
  | EmptyString => false
  | String c _ => (65 <=? nat_of_ascii c)%nat && (nat_of_ascii c <=? 90)%nat
  end.

End reflect.

(** ** Package [gpmd]: services *)

Module gpmd.
Import go codec reflect.

Record methodType := mkMethodType {
  method : Method;
  ArgType : Type_;
  ReplyType : Type_;
  numCalls : Z
}.

Definition newArgv (m : methodType) : outcome Value :=
  if bool_decide (kind (ArgType m) = Pointer) then
    e ← Type_Elem (ArgType m); Ret (New e)
  else Ret (VZero (ArgType m)).

Definition newReply (m : methodType) : outcome Value :=
  e ← Type_Elem (ReplyType m);
  let replyValue := New e in
  match kind e with
  | Map => Ret (VPtr (VMap []))
  | Slice => Ret (VPtr (VSlice []))
  | _ => Ret replyValue
  end.

(** What [Register] is given: a value with its dynamic type and the
    exported methods of that type, in the order [Type.Method(i)] lists
    them. *)
Record object := mkObject {
  obj_value : Value;
  obj_type : Type_;
  obj_methods : list Method
}.

Record service := mkService {
  name : string;
  typ : Type_;
  typ_methods : list Method;
  rcvr : Value;
  smethod : gmap string methodType
}.

Definition isExportedOrBuiltinType (t : Type_) : bool :=
  IsExported (Name t) || String.eqb (PkgPath t) "".

(** One round of the loop of [registerMethod]. *)
Definition registerMethod_iter (acc : gmap string methodType) (m : Method)
    : gmap string methodType :=
  match In (MType m), Out (MType m) with
  | [_; argType; replyType], [out0] =>
      if negb (Type_eqb out0 errorType) then acc
      else if negb (isExportedOrBuiltinType argType)
              || negb (isExportedOrBuiltinType replyType) then acc
      else <[MName m := {| method := m; ArgType := argType;
                           ReplyType := replyType; numCalls := 0 |}]> acc
  | _, _ => acc
  end.

Definition registerMethod (methods : list Method) : gmap string methodType :=
  fold_left registerMethod_iter methods ∅.

(** [reflect.Indirect(v).Type()]. *)
Definition Indirect_Type (t : Type_) : outcome Type_ :=
  if bool_decide (kind t = Pointer) then Type_Elem t else Ret t.

Definition newService (rcvr : object) : outcome service :=
  t ← Indirect_Type (obj_type rcvr);
  if negb (IsExported (Name t)) then
    Fatal ("rpc server:" +:+ Name t +:+ " is not a valid service name")
  else
    Ret {| name := Name t; typ := obj_type rcvr;
           typ_methods := obj_methods rcvr; rcvr := obj_value rcvr;
           smethod := registerMethod (obj_methods rcvr) |}.

(** [service.call]: the reply after the call, the error, and the method
    record with its counter moved. *)
Definition call (s : service) (m : methodType) (argv replayValue : Value)
    : (Value * option string) * methodType :=
  let m' := {| method := method m; ArgType := ArgType m;
               ReplyType := ReplyType m;
               numCalls := uint64_wrap (numCalls m + 1) |} in
  (Func (method m) (rcvr s) argv replayValue, m').

(** ** Package [gpmd]: the server *)

Definition MagicNumber : Z := 19088743.

Definition Second : Z := 1000000000.

Record Option := mkOption {
  OMagicNumber : Z;
  CodeType : string;
  ConnectTimeout : Z;
  HandleTimeout : Z
}.

(** The value [DefaultOption] points to when the program starts. *)
Definition DefaultOption_init : Option :=
  {| OMagicNumber := MagicNumber; CodeType := GobType;
     ConnectTimeout := 10 * Second; HandleTimeout := 0 |}.

Record Server := mkServer {
  serviceMap : gmap string service
}.

Definition NewServer : Server := {| serviceMap := ∅ |}.

(** [Register]: the error returned and the server left. *)
Definition Register (rcvr : object) (s : Server)
    : outcome (option string * Server) :=
  svc ← newService rcvr;
  match serviceMap s !! name svc with
  | Some _ => Ret (Some ("rpc: service already defined:" +:+ name svc), s)
  | None => Ret (None, {| serviceMap := <[name svc := svc]> (serviceMap s) |})
  end.

(** [findService]: the three named results as they are on return. *)
Definition findService (s : Server) (serviceMethod : string)
    : option service * option methodType * option string :=
  let dot := strings.LastIndex_dot serviceMethod in
  if dot <? 0 then
    (None, None,
     Some ("rpc server: service/method request ill-formed:" +:+ serviceMethod))
  else
    let serviceName := strings.slice_to serviceMethod dot in
    let methodName := strings.slice_from serviceMethod (dot + 1) in
    match serviceMap s !! serviceName with
    | None =>
        (None, None, Some ("rpc server: can't find service" +:+ serviceName))
    | Some svc =>
        match smethod svc !! methodName with
        | None =>
            (Some svc, None,
             Some ("rpc server: can't find method " +:+ methodName))
        | Some mType => (Some svc, Some mType, None)
        end
    end.

(** The codec of a connection. The implementations are outside the
    sources; a codec is what it does for its caller: [incoming] is what the
    peer sent, frame by frame, each body as the decoder will deliver it (a
    value, or the text of a decoding error), [body] is the body of the frame
    whose header was read last, [written] is what was written so far. *)
Record frame := mkFrame {
  fheader : Header;
  fbody : Value + string
}.

Record Codec := mkCodec {
  incoming : list frame;
  body : option (Value + string);
  written : list (Header * Value)
}.

Definition EOF : string := "EOF".

Definition ReadHeader (cc : Codec) : (Header + string) * Codec :=
  match incoming cc with
  | [] => (inr EOF, cc)
  | f :: rest =>
      (inl (fheader f),
       {| incoming := rest; body := Some (fbody f); written := written cc |})
  end.

Definition ReadBody (cc : Codec) : (Value + string) * Codec :=
  match body cc with
  | None => (inr EOF, cc)
  | Some b =>
      (b, {| incoming := incoming cc; body := None; written := written cc |})
  end.

Definition Write (h : Header) (b : Value) (cc : Codec) : Codec :=
  {| incoming := incoming cc; body := body cc;
     written := written cc ++ [(h, b)] |}.

(** [invalidRequest], the empty struct. *)
Definition invalidRequest : Value := VStruct [].

(** A request; [None] is the zero [reflect.Value], resp. the nil pointer. *)
Record request := mkRequest {
  h : Header;
  argv : option Value;
  replyv : option Value;
  mType : option methodType;
  svc : option service
}.

Definition set_Error (e : string) (h : Header) : Header :=
  {| ServiceMethod := ServiceMethod h; Seq := Seq h; Error := e |}.

Definition readRequestHeader (cc : Codec) : (option Header * option string) * Codec :=
  match ReadHeader cc with
  | (inr err, cc') => ((None, Some err), cc')
  | (inl h, cc') => ((Some h, None), cc')
  end.

(** [readRequest]: the request and the error returned, and the codec left.
    The body is decoded into [argv], through the pointer when the argument
    type is a pointer type. *)
Definition readRequest (s : Server) (cc : Codec)
    : outcome ((option request * option string) * Codec) :=
  match readRequestHeader cc with
  | ((None, err), cc1) => Ret ((None, err), cc1)
  | ((Some h, _), cc1) =>
      match findService s (ServiceMethod h) with
      | (svc, mType, Some err) =>
          Ret ((Some {| h := h; argv := None; replyv := None;
                        mType := mType; svc := svc |}, Some err), cc1)
      | (svc, None, None) => Panic "nil pointer dereference"
      | (svc, Some m, None) =>
          argv ← newArgv m;
          replyv ← newReply m;
          match ReadBody cc1 with
          | (inr err, cc2) =>
              Ret ((Some {| h := h; argv := Some argv; replyv := Some replyv;
                            mType := Some m; svc := svc |}, Some err), cc2)
          | (inl v, cc2) =>
              let argv' :=
                if bool_decide (kind (ArgType m) = Pointer) then VPtr v else v in
              Ret ((Some {| h := h; argv := Some argv'; replyv := Some replyv;
                            mType := Some m; svc := svc |}, None), cc2)
          end
      end
  end.

(** [sendResponse]; a failed write is only logged, and left out. *)
Definition sendResponse (cc : Codec) (h : Header) (b : Value) : Codec :=
  Write h b cc.

(** One round of the loop of [serveCodec]: leave the loop, answer an
    ill-formed request and go on, or start [handleRequest] on a request and
    go on. *)
Inductive serveCodec_round :=
  | Break (cc : Codec)
  | Continue (cc : Codec)
  | GoHandle (req : request) (cc : Codec).

Definition serveCodec_iter (s : Server) (cc : Codec) : outcome serveCodec_round :=
  r ← readRequest s cc;
  match r with
  | ((None, Some _), cc') => Ret (Break cc')
  | ((Some req, Some err), cc') =>
      Ret (Continue (sendResponse cc' (set_Error err (h req)) invalidRequest))
  | ((Some req, None), cc') => Ret (GoHandle req cc')
  | ((None, None), cc') => Panic "nil pointer dereference"
  end.

(** [handleRequest] runs two goroutines that meet on the unbuffered
    channels [called] and [sent]: the worker (the function literal) and the
    handler (the body of [handleRequest]). A state holds the header [req.h]
    they share, the reply, the codec and where each goroutine stands. *)

(** The worker: about to call the method; blocked on [called <-] with the
    error of the call; past it, about to test the error; blocked on
    [sent <-]; returned. *)
Inductive worker :=
  | WCall
  | WCalled (err : option string)
  | WCheck (err : option string)
  | WSent
  | WReturned.

(** The handler: about to test the timeout; blocked on [<-called]; blocked
    in the [select]; blocked on [<-sent]; returned (and [wg.Done] ran). *)
Inductive handler :=
  | HStart
  | HRecvCalled
  | HSelect
  | HRecvSent
  | HReturned.

Record hstate := mkHstate {
  hs_h : Header;
  hs_replyv : option Value;
  hs_mType : option methodType;
  hs_cc : Codec;
  hs_worker : worker;
  hs_handler : handler
}.

Definition hinit (req : request) (cc : Codec) : hstate :=
  {| hs_h := h req; hs_replyv := replyv req; hs_mType := mType req;
     hs_cc := cc; hs_worker := WCall; hs_handler := HStart |}.

Section handleRequest.

(** [time.Duration.String], which [%s] prints. *)
Variable Duration_String : Z → string.

Definition handle_timeout_error (timeout : Z) : string :=
  "rpc server: request handle timeout: expect within "
    +:+ Duration_String timeout.

(** The steps of [handleRequest(cc, req, sending, wg, timeout)]. Every
    write goes through [sendResponse], under the mutex [sending]. *)
Inductive hstep (req : request) (timeout : Z) : hstate → hstate → Prop :=
  | step_call st s m a r :
      hs_worker st = WCall →
      svc req = Some s → mType req = Some m →
      argv req = Some a → replyv req = Some r →
      hstep req timeout st
        {| hs_h := hs_h st;
           hs_replyv := Some (call s m a r).1.1;
           hs_mType := Some (call s m a r).2;
           hs_cc := hs_cc st;
           hs_worker := WCalled (call s m a r).1.2;
           hs_handler := hs_handler st |}
  | step_start st :
      hs_handler st = HStart →
      hstep req timeout st
        {| hs_h := hs_h st; hs_replyv := hs_replyv st;
           hs_mType := hs_mType st; hs_cc := hs_cc st;
           hs_worker := hs_worker st;
           hs_handler := if timeout =? 0 then HRecvCalled else HSelect |}
  | step_called st err :
      hs_worker st = WCalled err →
      hs_handler st = HRecvCalled ∨ hs_handler st = HSelect →
      hstep req timeout st
        {| hs_h := hs_h st; hs_replyv := hs_replyv st;
           hs_mType := hs_mType st; hs_cc := hs_cc st;
           hs_worker := WCheck err; hs_handler := HRecvSent |}
  | step_error st e :
      hs_worker st = WCheck (Some e) →
      hstep req timeout st
        {| hs_h := set_Error e (hs_h st); hs_replyv := hs_replyv st;
           hs_mType := hs_mType st;
           hs_cc := sendResponse (hs_cc st) (set_Error e (hs_h st))
                                 invalidRequest;
           hs_worker := WSent; hs_handler := hs_handler st |}
  | step_success st :
      hs_worker st = WCheck None →
      hstep req timeout st
        {| hs_h := hs_h st; hs_replyv := hs_replyv st;
           hs_mType := hs_mType st; hs_cc := hs_cc st;
           hs_worker := WReturned; hs_handler := hs_handler st |}
  | step_sent st :
      hs_worker st = WSent → hs_handler st = HRecvSent →
      hstep req timeout st
        {| hs_h := hs_h st; hs_replyv := hs_replyv st;
           hs_mType := hs_mType st; hs_cc := hs_cc st;
           hs_worker := WReturned; hs_handler := HReturned |}
  | step_timer st :
      hs_handler st = HSelect →
      hstep req timeout st
        {| hs_h := set_Error (handle_timeout_error timeout) (hs_h st);
           hs_replyv := hs_replyv st; hs_mType := hs_mType st;
           hs_cc := sendResponse (hs_cc st)
                      (set_Error (handle_timeout_error timeout) (hs_h st))
                      invalidRequest;
           hs_worker := hs_worker st; hs_handler := HReturned |}.

End handleRequest.

(** ** Package [gpmd]: the client *)

(** Options are passed by pointer: a store of [Option]s by address, with
    the global [DefaultOption] at a fixed address. *)
Definition DefaultOption : positive := 1%positive.

Definition store_init : gmap positive Option :=
  {[ DefaultOption := DefaultOption_init ]}.

Definition set_MagicNumber (n : Z) (o : Option) : Option :=
  {| OMagicNumber := n; CodeType := CodeType o;
     ConnectTimeout := ConnectTimeout o; HandleTimeout := HandleTimeout o |}.

Definition set_CodeType (t : string) (o : Option) : Option :=
  {| OMagicNumber := OMagicNumber o; CodeType := t;
     ConnectTimeout := ConnectTimeout o; HandleTimeout := HandleTimeout o |}.

(** Reading a field through a pointer; a pointer outside the store stands
    for an invalid address. *)
Definition load (p : positive) (st : gmap positive Option) : outcome Option :=
  match st !! p with
  | Some o => Ret o
  | None => Panic "invalid memory address or nil pointer dereference"
  end.

(** [parseOptions(opts...)]; an element of [opts] is a pointer or nil. The
    result is the pair returned and the store left: the assignments go
    through the pointer [opts[0]], which may be [DefaultOption] itself. *)
Definition parseOptions (opts : list (option positive))
    (st : gmap positive Option)
    : outcome ((option positive * option string) * gmap positive Option) :=
  match opts with
  | [] | None :: _ => Ret ((Some DefaultOption, None), st)
  | Some opt :: _ =>
      if 1 <? Z.of_nat (length opts) then
        Ret ((None, Some "number of options is more than one"), st)
      else
        d ← load DefaultOption st;
        o ← load opt st;
        let st1 := <[opt := set_MagicNumber (OMagicNumber d) o]> st in
        o1 ← load opt st1;
        if String.eqb (CodeType o1) "" then
          d1 ← load DefaultOption st1;
          Ret ((Some opt, None), <[opt := set_CodeType (CodeType d1) o1]> st1)
        else Ret ((Some opt, None), st1)
  end.

(** The handshake of [ServeConn], on the [Option] decoded from the
    connection ([None]: the decoder failed). *)
Inductive handshake :=
  | OptionsError
  | BadMagicNumber
  | BadCodecType
  | Accepted (f : string).

Definition ServeConn_handshake (decoded : option Option) : handshake :=
  match decoded with
  | None => OptionsError
  | Some opt =>
      if negb (OMagicNumber opt =? MagicNumber) then BadMagicNumber
      else match NewCodecFuncMap !! CodeType opt with
           | None => BadCodecType
           | Some f => Accepted f
           end
  end.

(** A transport connection, seen from the dialer: the [Option]s written to
    it and the number of times it was closed. *)
Record Conn := mkConn {
  conn_options : list Option;
  conn_closes : nat
}.

Definition Conn_Close (conn : Conn) : Conn :=
  {| conn_options := conn_options conn; conn_closes := S (conn_closes conn) |}.

Definition ErrShutdown : string := "connection is shut down".

Record Call := mkCall {
  CSeq : Z;
  ServerMethod : string;
  CError : option string
}.

(** A client; calls are named by their address. The mutexes are in the
    steps of [cstep] below. *)
Record Client := mkClient {
  copt : positive;
  header : Header;
  seq : Z;
  pending : gmap Z nat;
  closing : bool;
  shutdown : bool
}.

Definition NewClientCodec (opt : positive) : Client :=
  {| copt := opt; header := mkHeader "" 0 ""; seq := 1; pending := ∅;
     closing := false; shutdown := false |}.

(** [NewClient]; [enc_err] is the result of writing the encoded [Option] to
    the connection. The JSON encoding carries every field of the [Option]. *)
Definition NewClient (enc_err : option string) (conn : Conn) (opt : positive)
    (st : gmap positive Option)
    : outcome ((option Client * option string) * Conn) :=
  o ← load opt st;
  match NewCodecFuncMap !! CodeType o with
  | None => Ret ((None, Some ("invalid codec type " +:+ CodeType o)), conn)
  | Some f =>
      match enc_err with
      | Some err => Ret ((None, Some err), Conn_Close conn)
      | None =>
          Ret ((Some (NewClientCodec opt), None),
               {| conn_options := conn_options conn ++ [o];
                  conn_closes := conn_closes conn |})
      end
  end.

(** [dialTimeout]. The goroutine that runs [f] and the timer race; [sched]
    says which of the two the [select] sees first. *)
Inductive race :=
  | TimerFirst
  | ResultFirst.

Record dialed := mkDialed {
  d_client : option Client;
  d_err : option string;
  d_conn : option Conn;
  d_store : gmap positive Option
}.

(** The deferred function of [dialTimeout]. *)
Definition close_on_error (err : option string) (conn : Conn) : Conn :=
  match err with
  | Some _ => Conn_Close conn
  | None => conn
  end.

Section dial.

(** [time.Duration.String], which [%s] prints. *)
Variable Duration_String : Z → string.

Definition connect_timeout_error (d : Z) : string :=
  "rpc client: connect timeout: expect within " +:+ Duration_String d.

(** [net_DialTimeout d] is the result of
    [net.DialTimeout(network, address, d)]: a connection, or the error of
    the dialer. When the timer wins, the connection is the one dialled, as
    the goroutine of [f] left it at that moment. *)
Definition dialTimeout
    (f : Conn → positive → gmap positive Option →
         outcome ((option Client * option string) * Conn))
    (net_DialTimeout : Z → Conn + string) (sched : race)
    (opts : list (option positive)) (st : gmap positive Option)
    : outcome dialed :=
  r ← parseOptions opts st;
  match r with
  | ((_, Some err), st') =>
      Ret {| d_client := None; d_err := Some err; d_conn := None;
             d_store := st' |}
  | ((None, None), st') =>
      Panic "invalid memory address or nil pointer dereference"
  | ((Some opt, None), st') =>
      o ← load opt st';
      match net_DialTimeout (ConnectTimeout o) with
      | inr err =>
          Ret {| d_client := None; d_err := Some err; d_conn := None;
                 d_store := st' |}
      | inl conn =>
          let wait_result :=
            res ← f conn opt st';
            Ret {| d_client := res.1.1; d_err := res.1.2;
                   d_conn := Some (close_on_error res.1.2 res.2);
                   d_store := st' |} in
          if ConnectTimeout o =? 0 then wait_result
          else match sched with
               | TimerFirst =>
                   let err := connect_timeout_error (ConnectTimeout o) in
                   Ret {| d_client := None; d_err := Some err;
                          d_conn := Some (close_on_error (Some err) conn);
                          d_store := st' |}
               | ResultFirst => wait_result
               end
      end
  end.

(** [Dial]. *)
Definition Dial (enc_err : option string)
    (net_DialTimeout : Z → Conn + string) (sched : race)
    (opts : list (option positive)) (st : gmap positive Option)
    : outcome dialed :=
  dialTimeout (NewClient enc_err) net_DialTimeout sched opts st.

End dial.

(** The methods of [Client] that run under the mutex [mu]. *)
Definition set_CSeq (n : Z) (c : Call) : Call :=
  {| CSeq := n; ServerMethod := ServerMethod c; CError := CError c |}.

Definition set_CError (e : option string) (c : Call) : Call :=
  {| CSeq := CSeq c; ServerMethod := ServerMethod c; CError := e |}.

Definition registerCall (call : nat) (client : Client) (calls : gmap nat Call)
    : (Z * option string) * Client * gmap nat Call :=
  if closing client || shutdown client then
    ((0, Some ErrShutdown), client, calls)
  else
    ((seq client, None),
     {| copt := copt client; header := header client;
        seq := uint64_wrap (seq client + 1);
        pending := <[seq client := call]> (pending client);
        closing := closing client; shutdown := shutdown client |},
     alter (set_CSeq (seq client)) call calls).

Definition removeCall (seq0 : Z) (client : Client) : option nat * Client :=
  (pending client !! seq0,
   {| copt := copt client; header := header client; seq := seq client;
      pending := delete seq0 (pending client);
      closing := closing client; shutdown := shutdown client |}).

(** [terminateCalls(err)]: the client, the calls and the log of the calls
    signalled ([call.done()]), in the order the loop meets them. *)
Definition terminateCalls (err : string) (client : Client)
    (calls : gmap nat Call) (signalled : list nat)
    : Client * gmap nat Call * list nat :=
  let met := (map_to_list (pending client)).*2 in
  ({| copt := copt client; header := header client; seq := seq client;
      pending := pending client;
      closing := closing client; shutdown := true |},
   foldr (λ call cs, alter (set_CError (Some err)) call cs) calls met,
   signalled ++ met).

(** [Close]. *)
Definition Close (client : Client) : option string * Client :=
  if closing client then (Some ErrShutdown, client)
  else (None,
        {| copt := copt client; header := header client; seq := seq client;
           pending := pending client;
           closing := true; shutdown := shutdown client |}).

(** The goroutines of a client. The mutex [sending] is held by one sender
    at a time, from [send]'s [Lock] to its return; [terminateCalls] takes
    it too. Each step below is one critical section of [mu], one codec call,
    or one [call.done()].

    The sender that holds [sending]: none; [send] entered with a new call;
    [registerCall] failed; the call is registered under a sequence number
    and the frame is about to be written; the write failed; the call was
    taken out of [pending] and is about to be signalled. *)
Inductive sender :=
  | SIdle
  | SLocked (call : nat)
  | SRegFailed (call : nat) (err : string)
  | SRegistered (call : nat) (seq0 : Z)
  | SWriteFailed (seq0 : Z) (err : string)
  | SEvicted (call : nat) (err : string).

(** The goroutine of [receive]: about to read a header; holding the call a
    header matched; out of the loop with an error; past [terminateCalls]. *)
Inductive receiver :=
  | RLoop
  | RHave (call : nat) (hd : Header)
  | RExit (err : string)
  | RStopped.

(** [cs_signalled] logs every [call.done()]; [cs_registered] logs every
    call [registerCall] accepted; [cs_lost] logs every call whose entry in
    [pending] [registerCall] overwrote with another call. The three logs are
    not in the program, they only record what it did. *)
Record cstate := mkCstate {
  cs_client : Client;
  cs_calls : gmap nat Call;
  cs_signalled : list nat;
  cs_registered : list nat;
  cs_lost : list nat;
  cs_sender : sender;
  cs_receiver : receiver
}.

Definition cinit (opt : positive) : cstate :=
  mkCstate (NewClientCodec opt) ∅ [] [] [] SIdle RLoop.

Definition set_header (hd : Header) (client : Client) : Client :=
  {| copt := copt client; header := hd; seq := seq client;
     pending := pending client;
     closing := closing client; shutdown := shutdown client |}.

(** [call.ServerMethod]. *)
Definition call_method (calls : gmap nat Call) (call : nat) : string :=
  match calls !! call with
  | Some c => ServerMethod c
  | None => ""
  end.

Definition after_body (berr : option string) : receiver :=
  match berr with
  | None => RLoop
  | Some err => RExit err
  end.

(** The error [receive] leaves in a call it delivers; [berr] is the result
    of [ReadBody]. *)
Definition delivered_error (hd : Header) (berr : option string) (c : Call)
    : Call :=
  if negb (String.eqb (Error hd) "") then set_CError (Some (Error hd)) c
  else match berr with
       | Some err => set_CError (Some ("reading body failed:" +:+ err)) c
       | None => c
       end.

Inductive cstep : cstate → cstate → Prop :=
  (* [Go]: a new [Call]; [send] takes [sending] *)
  | step_go st call sm :
      cs_sender st = SIdle → cs_calls st !! call = None →
      cstep st (mkCstate (cs_client st)
                  (<[call := mkCall 0 sm None]> (cs_calls st))
                  (cs_signalled st) (cs_registered st) (cs_lost st)
                  (SLocked call) (cs_receiver st))
  (* [send]: [registerCall] accepts the call *)
  | step_register_ok st call seq0 client' calls' :
      cs_sender st = SLocked call →
      registerCall call (cs_client st) (cs_calls st)
        = ((seq0, None), client', calls') →
      cstep st (mkCstate client' calls' (cs_signalled st)
                  (call :: cs_registered st)
                  (match pending (cs_client st) !! seq0 with
                   | Some old => old :: cs_lost st
                   | None => cs_lost st
                   end)
                  (SRegistered call seq0) (cs_receiver st))
  (* [send]: [registerCall] refuses the call *)
  | step_register_err st call seq0 err client' calls' :
      cs_sender st = SLocked call →
      registerCall call (cs_client st) (cs_calls st)
        = ((seq0, Some err), client', calls') →
      cstep st (mkCstate client' calls' (cs_signalled st)
                  (cs_registered st) (cs_lost st)
                  (SRegFailed call err) (cs_receiver st))
  (* [send]: registration failed; [call.Error = err; call.done()] *)
  | step_regfail_done st call err :
      cs_sender st = SRegFailed call err →
      cstep st (mkCstate (cs_client st)
                  (alter (set_CError (Some err)) call (cs_calls st))
                  (cs_signalled st ++ [call]) (cs_registered st) (cs_lost st)
                  SIdle (cs_receiver st))
  (* [send]: the header is filled and [Write] succeeds *)
  | step_write_ok st call seq0 :
      cs_sender st = SRegistered call seq0 →
      cstep st (mkCstate (set_header
                            (mkHeader (call_method (cs_calls st) call) seq0 "")
                            (cs_client st))
                  (cs_calls st) (cs_signalled st) (cs_registered st) (cs_lost st)
                  SIdle (cs_receiver st))
  (* [send]: the header is filled and [Write] fails *)
  | step_write_err st call seq0 err :
      cs_sender st = SRegistered call seq0 →
      cstep st (mkCstate (set_header
                            (mkHeader (call_method (cs_calls st) call) seq0 "")
                            (cs_client st))
                  (cs_calls st) (cs_signalled st) (cs_registered st) (cs_lost st)
                  (SWriteFailed seq0 err) (cs_receiver st))
  (* [send]: [removeCall(seq)] after the failed write *)
  | step_evict st seq0 err :
      cs_sender st = SWriteFailed seq0 err →
      cstep st (mkCstate (removeCall seq0 (cs_client st)).2
                  (cs_calls st) (cs_signalled st) (cs_registered st) (cs_lost st)
                  (match (removeCall seq0 (cs_client st)).1 with
                   | Some call => SEvicted call err
                   | None => SIdle
                   end) (cs_receiver st))
  (* [send]: [call.Error = err; call.done()] after the failed write *)
  | step_evict_done st call err :
      cs_sender st = SEvicted call err →
      cstep st (mkCstate (cs_client st)
                  (alter (set_CError (Some err)) call (cs_calls st))
                  (cs_signalled st ++ [call]) (cs_registered st) (cs_lost st)
                  SIdle (cs_receiver st))
  (* [receive]: [ReadHeader] fails *)
  | step_header_err st err :
      cs_receiver st = RLoop →
      cstep st (mkCstate (cs_client st) (cs_calls st) (cs_signalled st)
                  (cs_registered st) (cs_lost st) (cs_sender st) (RExit err))
  (* [receive]: a header is read, [removeCall(h.Seq)]; with no call, the
     body is read and dropped *)
  | step_header st hd berr :
      cs_receiver st = RLoop →
      cstep st (mkCstate (removeCall (Seq hd) (cs_client st)).2
                  (cs_calls st) (cs_signalled st) (cs_registered st) (cs_lost st)
                  (cs_sender st)
                  (match (removeCall (Seq hd) (cs_client st)).1 with
                   | Some call => RHave call hd
                   | None => after_body berr
                   end))
  (* [receive]: the body is read, the call is completed; [call.done()] *)
  | step_deliver st call hd berr :
      cs_receiver st = RHave call hd →
      cstep st (mkCstate (cs_client st)
                  (alter (delivered_error hd berr) call (cs_calls st))
                  (cs_signalled st ++ [call]) (cs_registered st) (cs_lost st)
                  (cs_sender st) (after_body berr))
  (* [receive]: [terminateCalls(err)], which takes [sending] and [mu] *)
  | step_terminate st err :
      cs_receiver st = RExit err → cs_sender st = SIdle →
      cstep st
        (let r := terminateCalls err (cs_client st) (cs_calls st)
                    (cs_signalled st) in
         mkCstate r.1.1 r.1.2 r.2 (cs_registered st) (cs_lost st)
           SIdle RStopped)
  (* [Close] *)
  | step_close st :
      cstep st (mkCstate (Close (cs_client st)).2 (cs_calls st)
                  (cs_signalled st) (cs_registered st) (cs_lost st)
                  (cs_sender st) (cs_receiver st)).

(** The accounts of a call: the signals it received, and the places that
    still owe it one: its entries in [pending] while the client is not shut
    down, the sender and the receiver when they hold it to signal it. *)
Definition times (call : nat) (l : list nat) : nat :=
  count_occ Nat.eq_dec l call.

Definition in_pending (client : Client) (call : nat) : nat :=
  if shutdown client then 0%nat
  else times call (map_to_list (pending client)).*2.

Definition held_by_sender (s : sender) (call : nat) : nat :=
  match s with
  | SLocked c | SRegFailed c _ | SEvicted c _ =>
      if decide (c = call) then 1%nat else 0%nat
  | _ => 0%nat
  end.

Definition held_by_receiver (r : receiver) (call : nat) : nat :=
  match r with
  | RHave c _ => if decide (c = call) then 1%nat else 0%nat
  | _ => 0%nat
  end.

Definition owed (st : cstate) (call : nat) : nat :=
  (in_pending (cs_client st) call + held_by_sender (cs_sender st) call
   + held_by_receiver (cs_receiver st) call)%nat.

(** What every state of a client satisfies (see [cstep_inv]): a call that
    exists has exactly one of: a signal, a place that owes it one, an entry
    in [cs_lost]; a call that does not exist has none. Registered calls
    exist. The receiver is past [terminateCalls] exactly when the client is
    shut down, and then no sender is past a successful [registerCall]. A
    call that the sender has not registered yet is not registered. And as
    long as fewer than 2^64 - 1 calls were registered, the counter [seq] has
    not wrapped, it bounds the keys of [pending], and no call was lost. *)
Definition created (st : cstate) (call : nat) : nat :=
  match cs_calls st !! call with
  | Some _ => 1%nat
  | None => 0%nat
  end.

Definition client_inv (st : cstate) : Prop :=
  (∀ c, (times c (cs_signalled st) + owed st c + times c (cs_lost st))%nat
        = created st c) ∧
  (∀ c, c ∈ cs_registered st → created st c = 1%nat) ∧
  (cs_receiver st = RStopped ↔ shutdown (cs_client st) = true) ∧
  (shutdown (cs_client st) = true →
   match cs_sender st with
   | SIdle | SLocked _ | SRegFailed _ _ => True
   | _ => False
   end) ∧
  (match cs_sender st with
   | SLocked c | SRegFailed c _ => c ∉ cs_registered st
   | _ => True
   end) ∧
  (Z.of_nat (length (cs_registered st)) < 2 ^ 64 - 1 →
   seq (cs_client st) = 1 + Z.of_nat (length (cs_registered st)) ∧
   (∀ k, is_Some (pending (cs_client st) !! k) → 1 ≤ k < seq (cs_client st)) ∧
   cs_lost st = []).

(** [IsAvailable]. *)
Definition IsAvailable (client : Client) : bool :=
  negb (shutdown client) && negb (closing client).


(** A server on which every method of every service takes its reply
    through a pointer, pointer types having an element type. *)
Definition pointer_replies (s : Server) : Prop :=
  ∀ A sv B m, serviceMap s !! A = Some sv → smethod sv !! B = Some m →
    kind (ReplyType m) = Pointer ∧ is_Some (elem (ReplyType m)) ∧
    (kind (ArgType m) = Pointer → is_Some (elem (ArgType m))).

End gpmd.

(** ** Package [main]: the service of the example programs *)

Module main.
Import go reflect gpmd.

Definition int_type : Type_ := mkType "int" "" Int None.
Definition ptr_to (t : Type_) : Type_ := mkType "" "" Pointer (Some t).

(** [type Foo int], [type Args struct{ Num1, Num2 int }]. *)
Definition Foo_type : Type_ := mkType "Foo" "main" Int None.
Definition Args_type : Type_ := mkType "Args" "main" Struct None.

(** [func (f Foo) Sum(args Args, reply *int) error]. *)
Definition Sum (f args reply : Value) : Value * option string :=
  match args with
  | VStruct [VInt Num1; VInt Num2] => (VPtr (VInt (int_wrap (Num1 + Num2))), None)
  | _ => (reply, None)
  end.

Definition Foo_Sum : Method :=
  {| MName := "Sum";
     MType := {| In := [ptr_to Foo_type; Args_type; ptr_to int_type];
                 Out := [errorType] |};
     Func := Sum |}.

(** [var foo Foo], registered as [&foo]. *)
Definition foo : object :=
  {| obj_value := VPtr (VInt 0); obj_type := ptr_to Foo_type;
     obj_methods := [Foo_Sum] |}.

(** A service that is not in the sources, with a reply parameter that is
    not a pointer: [type Bar int] and
    [func (b Bar) Bad(args Args, reply Args) error { return nil }]. *)
Definition Bar_type : Type_ := mkType "Bar" "main" Int None.

Definition Bar_Bad : Method :=
  {| MName := "Bad";
     MType := {| In := [ptr_to Bar_type; Args_type; Args_type];
                 Out := [errorType] |};
     Func := λ b args reply, (reply, None) |}.

Definition bar : object :=
  {| obj_value := VPtr (VInt 0); obj_type := ptr_to Bar_type;
     obj_methods := [Bar_Bad] |}.

(** The servers of the examples: [Register(&foo)], resp. [Register(&bar)],
    on a new server. *)
Definition server_of (rcvr : object) : Server :=
  match Register rcvr NewServer with
  | Ret (_, s) => s
  | _ => NewServer
  end.

(** A connection on which the peer sent one request. *)
Definition one_request (serviceMethod : string) (args : Value) : Codec :=
  {| incoming := [mkFrame (codec.mkHeader serviceMethod 1 "") (inl args)];
     body := None; written := [] |}.

(** The request [readRequest] builds for a call of [Foo.Sum]. *)
Definition Foo_service : service :=
  mkService "Foo" (ptr_to Foo_type) [Foo_Sum] (VPtr (VInt 0))
    (registerMethod [Foo_Sum]).

Definition Foo_Sum_methodType : methodType :=
  {| method := Foo_Sum; ArgType := Args_type; ReplyType := ptr_to int_type;
     numCalls := 0 |}.

Definition Foo_Sum_request (args : Value) : request :=
  {| h := codec.mkHeader "Foo.Sum" 1 ""; argv := Some args;
     replyv := Some (New int_type); mType := Some Foo_Sum_methodType;
     svc := Some Foo_service |}.

End main.

(** * Properties *)

(** ** The order on strings and sorting *)

Section string_order.

Lemma ascii_compare_refl (c : ascii) : Ascii.compare c c = Eq.
Proof. unfold Ascii.compare. apply N.compare_refl. Qed.

Lemma ascii_compare_lt_trans (a b c : ascii) :
  Ascii.compare a b = Lt → Ascii.compare b c = Lt → Ascii.compare a c = Lt.
Proof.
  unfold Ascii.compare. rewrite !N.compare_lt_iff. apply N.lt_trans.
Qed.

Lemma string_compare_lt_trans (s1 : string) : ∀ s2 s3,
  String.compare s1 s2 = Lt → String.compare s2 s3 = Lt →
  String.compare s1 s3 = Lt.
Proof.
  induction s1 as [|a s1 IH]; intros [|b s2] [|c s3]; simpl; try done.
  destruct (Ascii.compare a b) eqn:Hab; try done;
    destruct (Ascii.compare b c) eqn:Hbc; try done.
  - apply Ascii.compare_eq_iff in Hab, Hbc. subst.
    rewrite ascii_compare_refl. apply IH.
  - apply Ascii.compare_eq_iff in Hab. subst. by rewrite Hbc.
  - apply Ascii.compare_eq_iff in Hbc. subst. by rewrite Hab.
  - by rewrite (ascii_compare_lt_trans a b c).
Qed.

Lemma string_compare_refl (s : string) : String.compare s s = Eq.
Proof. induction s as [|a s IH]; simpl; [done|]. by rewrite ascii_compare_refl. Qed.

#[global] Instance strings_le_total : Total strings.le.
Proof. intros a b. apply String.leb_total. Qed.

#[global] Instance strings_le_antisym : AntiSymm (=) strings.le.
Proof. intros a b. apply String.leb_antisym. Qed.

#[global] Instance strings_le_trans : Transitive strings.le.
Proof.
  intros a b c. unfold strings.le, String.leb.
  destruct (String.compare a b) eqn:Hab; try done;
    destruct (String.compare b c) eqn:Hbc; try done; intros _ _.
  - apply String.compare_eq_iff in Hab, Hbc. subst. by rewrite string_compare_refl.
  - apply String.compare_eq_iff in Hab. subst. by rewrite Hbc.
  - apply String.compare_eq_iff in Hbc. subst. by rewrite Hab.
  - by rewrite (string_compare_lt_trans a b c).
Qed.

Lemma Strings_sorted (x : list string) : Sorted strings.le (sort.Strings x).
Proof. apply Sorted_merge_sort, _. Qed.

Lemma Strings_perm (x : list string) : sort.Strings x ≡ₚ x.
Proof. apply merge_sort_Permutation. Qed.

(** A list has one sorted arrangement. *)
Lemma Strings_unique (x l : list string) :
  Sorted strings.le l → l ≡ₚ x → l = sort.Strings x.
Proof.
  intros Hs Hp. apply (Sorted_unique strings.le); [done|apply Strings_sorted|].
  by rewrite Strings_perm.
Qed.

End string_order.

(** ** The registry *)

Section registry_props.
Import registry.
Implicit Types (r : Registry) (m : gmap string ServerItem).
Implicit Types (clock : string → Z) (l : list (string * ServerItem)).

(** The loop of [aliveServers] splits into the addresses it collects and
    the map it leaves. *)
Lemma aliveServers_fold tmo clock l : ∀ (acc : list string) m,
  fold_left (aliveServers_iter tmo clock) l (acc, m) =
  (acc ++ (List.filter (λ e, alive tmo e.2 (clock e.1)) l).*1,
   fold_left (λ m' e, if alive tmo e.2 (clock e.1) then m' else delete e.1 m')
             l m).
Proof.
  induction l as [|e l IH]; intros acc m; simpl.
  - by rewrite app_nil_r.
  - unfold aliveServers_iter at 2. simpl.
    destruct (alive tmo e.2 (clock e.1)); simpl; rewrite IH; [|done].
    by rewrite <- app_assoc.
Qed.

Lemma purge_absent tmo clock l a : ∀ m,
  m !! a = None →
  fold_left (λ m' e, if alive tmo e.2 (clock e.1) then m' else delete e.1 m')
            l m !! a = None.
Proof.
  induction l as [|e l IH]; intros m Hm; simpl; [done|].
  apply IH. destruct (alive _ _ _); [done|].
  rewrite lookup_delete. by case_decide.
Qed.

Lemma purge_dead tmo clock l a : ∀ m,
  (∃ e, e ∈ l ∧ e.1 = a ∧ alive tmo e.2 (clock e.1) = false) →
  fold_left (λ m' e, if alive tmo e.2 (clock e.1) then m' else delete e.1 m')
            l m !! a = None.
Proof.
  induction l as [|e l IH]; intros m (e' & Hin & Ha & Hd); simpl.
  - by apply elem_of_nil in Hin.
  - apply elem_of_cons in Hin as [->|Hin].
    + rewrite Hd, Ha. apply purge_absent, lookup_delete_eq.
    + apply IH. eauto.
Qed.

Lemma purge_alive tmo clock l a : ∀ m,
  (∀ e, e ∈ l → e.1 = a → alive tmo e.2 (clock e.1) = true) →
  fold_left (λ m' e, if alive tmo e.2 (clock e.1) then m' else delete e.1 m')
            l m !! a = m !! a.
Proof.
  induction l as [|e l IH]; intros m Hl; simpl; [done|].
  rewrite IH by (intros; apply Hl; [by right|done]).
  destruct (alive tmo e.2 (clock e.1)) eqn:He; [done|].
  rewrite lookup_delete_ne; [done|]. intros Ha.
  specialize (Hl e (list_elem_of_here _ _) Ha). congruence.
Qed.

(** The addresses [aliveServers] returns: sorted, without repetition, and
    exactly those whose entry passes the test. *)
Lemma aliveServers_list clock r :
  Sorted strings.le (aliveServers clock r).1 ∧
  NoDup (aliveServers clock r).1 ∧
  ∀ a, a ∈ (aliveServers clock r).1 ↔
       ∃ s, servers r !! a = Some s ∧ alive (timeout r) s (clock a) = true.
Proof.
  unfold aliveServers. rewrite aliveServers_fold. simpl.
  split; [apply Strings_sorted|].
  assert (Hnd : NoDup (List.filter (λ e, alive (timeout r) e.2 (clock e.1))
                         (map_to_list (servers r))).*1).
  { apply (sublist_NoDup _ (map_to_list (servers r)).*1);
      [apply NoDup_fst_map_to_list|].
    apply fmap_sublist. clear.
    induction (map_to_list (servers r)) as [|e l IH]; simpl; [done|].
    destruct (alive _ _ _); by constructor. }
  split; [by rewrite Strings_perm|].
  intros a. rewrite Strings_perm, list_elem_of_fmap. split.
  - intros ([a' s] & -> & Hin). apply list_elem_of_In, filter_In in Hin as [Hin Hal].
    apply list_elem_of_In, elem_of_map_to_list in Hin. eauto.
  - intros (s & Hs & Hal). exists (a, s). split; [done|].
    apply list_elem_of_In, filter_In. split; [|done].
    by apply list_elem_of_In, elem_of_map_to_list.
Qed.

(** The registry [aliveServers] leaves: the entries that pass the test, as
    they were. *)
Lemma aliveServers_purged clock r a :
  servers (aliveServers clock r).2 !! a =
  match servers r !! a with
  | Some s => if alive (timeout r) s (clock a) then Some s else None
  | None => None
  end.
Proof.
  unfold aliveServers. rewrite aliveServers_fold. simpl.
  destruct (servers r !! a) as [s|] eqn:Hs; [|by apply purge_absent].
  destruct (alive (timeout r) s (clock a)) eqn:Hal.
  - rewrite purge_alive; [done|]. intros [a' s'] Hin Ha. simpl in *. subst a'.
    apply elem_of_map_to_list in Hin. congruence.
  - apply purge_dead. exists (a, s). split; [|done].
    by apply elem_of_map_to_list.
Qed.

Lemma aliveServers_timeout clock r :
  timeout (aliveServers clock r).2 = timeout r.
Proof. done. Qed.

Lemma alive_spec tmo s now :
  alive tmo s now = true ↔ tmo = 0 ∨ now - start s < tmo.
Proof.
  unfold alive, Time_After, Time_Add.
  rewrite orb_true_iff, Z.eqb_eq, Z.ltb_lt. lia.
Qed.

Lemma putServer_lookup now addr r :
  ∃ s, servers (putServer now addr r) !! addr = Some s ∧ start s = now.
Proof.
  unfold putServer. destruct (servers r !! addr); simpl;
    rewrite lookup_insert_eq; eauto.
Qed.

Lemma putServer_other now addr r a :
  a ≠ addr → servers (putServer now addr r) !! a = servers r !! a.
Proof.
  intros Hne. unfold putServer. destruct (servers r !! addr); simpl;
    by rewrite lookup_insert_ne.
Qed.

Lemma putServer_timeout now addr r : timeout (putServer now addr r) = timeout r.
Proof. unfold putServer. by destruct (servers r !! addr). Qed.

End registry_props.

Section registry_claims.
Import registry.

(** C2 (amended): an entry of the registry is reported by [aliveServers]
    exactly when the configured timeout is zero or the time elapsed since its
    last heartbeat is strictly less than the timeout; at elapsed = timeout
    the entry has already expired. *)
Theorem registry_entry_alive_iff_strictly_within_timeout
    (clock : string → Z) (r : Registry) (a : string) (s : ServerItem) :
  servers r !! a = Some s →
  a ∈ (aliveServers clock r).1 ↔ timeout r = 0 ∨ clock a - start s < timeout r.
Proof.
  intros Hs. destruct (aliveServers_list clock r) as (_ & _ & Hin).
  rewrite Hin, <- alive_spec. split; [|by eauto].
  intros (s' & Hs' & Hal). congruence.
Qed.

(** Witness of C2 (amended): [A] posted at 0 and queried 10 s later, under
    the default timeout. *)
Lemma registry_entry_alive_witness :
  servers (putServer 0 "A" DefaultRegistry) !! "A"
    = Some {| Addr := "A"; start := 0 |} ∧
  ("A" ∈ (aliveServers (λ _, 10000000000) (putServer 0 "A" DefaultRegistry)).1 ↔
   timeout (putServer 0 "A" DefaultRegistry) = 0 ∨
   10000000000 - start {| Addr := "A"; start := 0 |}
     < timeout (putServer 0 "A" DefaultRegistry)).
Proof.
  split; [reflexivity|].
  apply (registry_entry_alive_iff_strictly_within_timeout
           (λ _, 10000000000) (putServer 0 "A" DefaultRegistry) "A"
           {| Addr := "A"; start := 0 |}).
  reflexivity.
Defined.

(** Counterexample to C2 as stated: [A] posted at 0 under the default
    timeout and queried at exactly 0 + timeout. The elapsed time is within
    the timeout, yet the address is not reported. *)
Lemma registry_boundary_entry_is_expired :
  ¬ ("A" ∈ (aliveServers (λ _, 0 + defaultTimeout)
                         (putServer 0 "A" DefaultRegistry)).1 ↔
     timeout (putServer 0 "A" DefaultRegistry) = 0 ∨
     (0 + defaultTimeout) - 0 ≤ timeout (putServer 0 "A" DefaultRegistry)).
Proof.
  intros [_ H].
  assert (Hin : "A" ∈ (aliveServers (λ _, 0 + defaultTimeout)
                         (putServer 0 "A" DefaultRegistry)).1).
  { apply H. right. vm_compute. discriminate. }
  vm_compute in Hin. by apply elem_of_nil in Hin.
Qed.

(** C6: a GET sets the header [X-GPMD-SERVERS] to the comma-joined list [L]
    of server addresses, where [L] is sorted, has no repetition and holds
    exactly the addresses whose entry is alive; the registry it leaves holds
    the alive entries unchanged and none of the expired ones. *)
Theorem GET_sets_sorted_alive_header_and_purges_expired
    (clock : string → Z) (w : ResponseWriter) (h : gmap string string)
    (r : Registry) :
  (∃ L : list string,
     wHeader (ServeHTTP clock w (mkRequest "GET" h) r).1 !! "X-GPMD-SERVERS"
       = Some (strings.Join L ",") ∧
     Sorted strings.le L ∧ NoDup L ∧
     ∀ a, a ∈ L ↔
          ∃ s, servers r !! a = Some s ∧ alive (timeout r) s (clock a) = true) ∧
  (∀ a, servers (ServeHTTP clock w (mkRequest "GET" h) r).2 !! a =
        match servers r !! a with
        | Some s => if alive (timeout r) s (clock a) then Some s else None
        | None => None
        end) ∧
  timeout (ServeHTTP clock w (mkRequest "GET" h) r).2 = timeout r.
Proof.
  unfold ServeHTTP. simpl. split; [|split].
  - exists (aliveServers clock r).1. split; [apply lookup_insert_eq|].
    apply aliveServers_list.
  - apply aliveServers_purged.
  - done.
Qed.

(** C7: on a response writer that has written no status yet: a POST with a
    non-empty [X-GPMD-SERVERS] header leaves that address in the registry
    with the current time as its timestamp and touches no other entry; a POST
    whose header is missing answers 500 and leaves the registry as it was; a
    request that is neither GET nor POST answers 405 (and leaves the registry
    as it was). *)
Theorem POST_upserts_missing_header_500_other_method_405
    (clock : string → Z) (w : ResponseWriter) (req : Request) (r : Registry) :
  status w = None →
  (Method req = "POST" → Header_Get (Header req) "X-GPMD-SERVERS" ≠ "" →
     (∃ s, servers (ServeHTTP clock w req r).2
             !! Header_Get (Header req) "X-GPMD-SERVERS" = Some s ∧
           start s = clock (Header_Get (Header req) "X-GPMD-SERVERS")) ∧
     (∀ a, a ≠ Header_Get (Header req) "X-GPMD-SERVERS" →
           servers (ServeHTTP clock w req r).2 !! a = servers r !! a) ∧
     timeout (ServeHTTP clock w req r).2 = timeout r ∧
     StatusCode (ServeHTTP clock w req r).1 = 200) ∧
  (Method req = "POST" → Header_Get (Header req) "X-GPMD-SERVERS" = "" →
     StatusCode (ServeHTTP clock w req r).1 = 500 ∧
     (ServeHTTP clock w req r).2 = r) ∧
  (Method req ≠ "GET" → Method req ≠ "POST" →
     StatusCode (ServeHTTP clock w req r).1 = 405 ∧
     (ServeHTTP clock w req r).2 = r).
Proof.
  intros Hw. unfold ServeHTTP, StatusCode, WriteHeader. split; [|split].
  - intros -> Hne. simpl. apply String.eqb_neq in Hne. rewrite Hne. simpl.
    rewrite Hw. split; [apply putServer_lookup|].
    split; [intros; by apply putServer_other|].
    split; [apply putServer_timeout|done].
  - intros -> He. simpl. apply String.eqb_eq in He. rewrite He. simpl.
    by rewrite Hw.
  - intros Hg Hp. apply String.eqb_neq in Hg, Hp. rewrite Hg, Hp. simpl.
    by rewrite Hw.
Qed.

(** Witness of C7: a POST of [B] at time 7 to a registry that holds [A]. *)
Lemma POST_upsert_witness :
  status (mkResponseWriter None ∅) = None ∧
  ∃ s, servers (ServeHTTP (λ _, 7) (mkResponseWriter None ∅)
                  (mkRequest "POST" {[ "X-GPMD-SERVERS" := "B" ]})
                  (putServer 0 "A" DefaultRegistry)).2 !! "B" = Some s ∧
       start s = 7.
Proof.
  split; [reflexivity|].
  destruct (POST_upserts_missing_header_500_other_method_405
              (λ _, 7) (mkResponseWriter None ∅)
              (mkRequest "POST" {[ "X-GPMD-SERVERS" := "B" ]})
              (putServer 0 "A" DefaultRegistry) eq_refl) as [Hpost _].
  destruct (Hpost eq_refl) as [Hs _]; [vm_compute; discriminate|].
  exact Hs.
Defined.

End registry_claims.

(** ** Discovery: round robin *)

Section round_robin.
Import go xclient.
Implicit Types (d : MultiServerDiscovery).

Lemma int_wrap_small z : 0 ≤ z ≤ MaxInt → int_wrap z = z.
Proof.
  unfold int_wrap, MaxInt. intros Hz.
  rewrite Z.mod_small; lia.
Qed.

(** One round-robin call on a non-empty list returns the entry under the
    cursor (modulo the size) and moves the cursor one step, modulo the
    size. *)
Lemma Get_round_robin rnd d :
  servers d ≠ [] →
  0 ≤ index d < MaxInt →
  ∃ s, servers d !! Z.to_nat (index d `mod` Z.of_nat (length (servers d))) = Some s ∧
       Get rnd RoundRobinSelect d =
       Ret ((s, None),
            {| servers := servers d;
               index := (index d + 1) `mod` Z.of_nat (length (servers d)) |}).
Proof.
  intros Hne Hidx. unfold Get.
  assert (Hn : 0 < Z.of_nat (length (servers d))).
  { destruct (servers d); [done|simpl; lia]. }
  destruct (Z.eqb_spec (Z.of_nat (length (servers d))) 0) as [|_]; [lia|].
  change (RoundRobinSelect =? RandomSelect) with false.
  change (RoundRobinSelect =? RoundRobinSelect) with true. cbv iota.
  rewrite int_wrap_small by lia.
  rewrite !Z.rem_mod_nonneg by lia.
  pose proof (Z.mod_pos_bound (index d) _ Hn) as Hb.
  unfold slice_index. destruct (Z.ltb_spec (index d `mod` Z.of_nat (length (servers d))) 0); [lia|].
  destruct (lookup_lt_is_Some_2 (servers d)
              (Z.to_nat (index d `mod` Z.of_nat (length (servers d))))) as [s Hs]; [lia|].
  rewrite Hs. eauto.
Qed.

(** The [i]-th of [k] consecutive round-robin calls returns the entry at
    position [(index + i) mod n]. *)
Lemma Gets_lookup k : ∀ d,
  servers d ≠ [] →
  Z.of_nat (length (servers d)) ≤ MaxInt →
  0 ≤ index d < MaxInt →
  ∃ L d', Gets k d = Some (L, d') ∧ length L = k ∧
    ∀ i, (i < k)%nat →
      L !! i = servers d !! Z.to_nat ((index d + Z.of_nat i)
                                       `mod` Z.of_nat (length (servers d))).
Proof.
  induction k as [|k IH]; intros d Hne Hlen Hidx.
  - exists [], d. split; [done|]. split; [done|]. intros; lia.
  - destruct (Get_round_robin 0 d Hne Hidx) as (s & Hs & HG).
    assert (Hn : 0 < Z.of_nat (length (servers d))).
    { destruct (servers d); [done|simpl; lia]. }
    pose proof (Z.mod_pos_bound (index d + 1) _ Hn) as Hb.
    destruct (IH {| servers := servers d;
                    index := (index d + 1) `mod` Z.of_nat (length (servers d)) |})
      as (L & d' & HL & HlenL & Hlook); simpl; [done|done|lia|].
    exists (s :: L), d'. simpl. rewrite HG, HL. simpl.
    split; [done|]. split; [by rewrite HlenL|].
    intros [|i] Hi; simpl.
    + by rewrite Z.add_0_r.
    + rewrite Hlook by lia. simpl. f_equal. f_equal.
      rewrite Zplus_mod_idemp_l. f_equal. lia.
Qed.

Lemma rotate_Permutation {A} (n : nat) (l : list A) : rotate n l ≡ₚ l.
Proof.
  unfold rotate. rewrite Permutation_app_comm. by rewrite take_drop.
Qed.

(** [n] consecutive calls return the list rotated by the cursor. *)
Lemma Gets_full_round d :
  servers d ≠ [] →
  Z.of_nat (length (servers d)) ≤ MaxInt →
  0 ≤ index d < MaxInt →
  ∃ d', Gets (length (servers d)) d =
        Some (rotate (Z.to_nat (index d)) (servers d), d').
Proof.
  intros Hne Hlen Hidx.
  destruct (Gets_lookup (length (servers d)) d Hne Hlen Hidx)
    as (L & d' & HL & HlenL & Hlook).
  exists d'. rewrite HL. f_equal. f_equal.
  apply list_eq. intros i.
  destruct (decide (i < length (servers d))%nat) as [Hi|Hi].
  - rewrite Hlook, lookup_rotate_r by done. unfold rotate_nat_add.
    by rewrite Z2Nat.id by lia.
  - rewrite !lookup_ge_None_2; [done|rewrite length_rotate; lia|lia].
Qed.

(** The seed [NewMultiServerDiscovery] draws is a cursor in range. *)
Lemma seed_in_range (servers0 : list string) (seed : Z) :
  0 ≤ seed < MaxInt32 - 1 →
  0 ≤ index (NewMultiServerDiscovery servers0 seed) < MaxInt.
Proof. unfold MaxInt32, MaxInt. simpl. lia. Qed.

End round_robin.

Section round_robin_claim.
Import go xclient.

(** C8: on a non-empty list of [n] servers held fixed, with the cursor at a
    non-negative value (the seed, or what earlier calls left), [n]
    consecutive calls [Get(RoundRobinSelect)] all succeed and return the list
    rotated by the cursor, hence each entry exactly once; and in any longer
    run the call [i + n] returns what call [i] returned. *)
Theorem round_robin_each_entry_once_period_n (d : MultiServerDiscovery) :
  servers d ≠ [] →
  Z.of_nat (length (servers d)) ≤ MaxInt →
  0 ≤ index d < MaxInt →
  (∃ L d', Gets (length (servers d)) d = Some (L, d') ∧
           L = rotate (Z.to_nat (index d)) (servers d) ∧ L ≡ₚ servers d) ∧
  (∀ k, ∃ L d', Gets (k + length (servers d)) d = Some (L, d') ∧
        ∀ i, (i < k)%nat →
             is_Some (L !! i) ∧ L !! (i + length (servers d))%nat = L !! i).
Proof.
  intros Hne Hlen Hidx. split.
  - destruct (Gets_full_round d Hne Hlen Hidx) as (d' & HG).
    eexists _, d'. split; [exact HG|]. split; [done|apply rotate_Permutation].
  - intros k.
    destruct (Gets_lookup (k + length (servers d)) d Hne Hlen Hidx)
      as (L & d' & HL & HlenL & Hlook).
    exists L, d'. split; [done|]. intros i Hi.
    assert (Hn : 0 < Z.of_nat (length (servers d))).
    { destruct (servers d); [done|simpl; lia]. }
    split.
    + apply lookup_lt_is_Some_2. lia.
    + rewrite !Hlook by lia. f_equal. f_equal.
      rewrite Nat2Z.inj_add, Z.add_assoc.
      rewrite <- (Z.mul_1_l (Z.of_nat (length (servers d)))) at 1.
      by rewrite Z_mod_plus_full.
Qed.

(** Witness of C8: three servers, seed 7. *)
Lemma round_robin_witness :
  ∃ L d', Gets 3 (NewMultiServerDiscovery ["a"; "b"; "c"] 7) = Some (L, d') ∧
          L = rotate 7 ["a"; "b"; "c"] ∧ L ≡ₚ ["a"; "b"; "c"].
Proof.
  apply (round_robin_each_entry_once_period_n
           (NewMultiServerDiscovery ["a"; "b"; "c"] 7)).
  - discriminate.
  - vm_compute. discriminate.
  - split; vm_compute; [discriminate|reflexivity].
Defined.

End round_robin_claim.

(** ** Strings: the last dot, slices and substrings *)

Section string_facts.

Lemma LastIndex_dot_from_no_dot s : ∀ i last,
  "."%char ∉ list_ascii_of_string s →
  strings.LastIndex_dot_from i last s = last.
Proof.
  induction s as [|c s IH]; intros i last Hs; simpl in *; [done|].
  apply not_elem_of_cons in Hs as [Hc Hs].
  rewrite IH by done.
  destruct (Ascii.eqb_spec c "."); congruence.
Qed.

Lemma LastIndex_dot_from_split A B : ∀ i last,
  "."%char ∉ list_ascii_of_string B →
  strings.LastIndex_dot_from i last (A +:+ "." +:+ B)
    = i + Z.of_nat (String.length A).
Proof.
  induction A as [|c A IH]; intros i last HB; simpl.
  - rewrite LastIndex_dot_from_no_dot by done. lia.
  - rewrite IH by done. lia.
Qed.

Lemma LastIndex_dot_from_ge s : ∀ i last,
  0 ≤ i → -1 ≤ last → -1 ≤ strings.LastIndex_dot_from i last s.
Proof.
  induction s as [|c s IH]; intros i last Hi Hl; simpl; [done|].
  apply IH; [lia|]. destruct (Ascii.eqb c "."); lia.
Qed.

Lemma substring_prefix_app A : ∀ rest,
  String.substring 0 (String.length A) (A +:+ rest) = A.
Proof.
  induction A as [|c A IH]; intros rest; simpl.
  - by destruct rest.
  - by rewrite IH.
Qed.

Lemma substring_all s : String.substring 0 (String.length s) s = s.
Proof. induction s as [|c s IH]; simpl; [done|]. by rewrite IH. Qed.

Lemma substring_suffix_app A : ∀ B,
  String.substring (String.length A)
    (String.length (A +:+ B) - String.length A) (A +:+ B) = B.
Proof.
  induction A as [|c A IH]; intros B; simpl.
  - rewrite Nat.sub_0_r. apply substring_all.
  - apply IH.
Qed.

Lemma string_length_app A B :
  String.length (A +:+ B) = (String.length A + String.length B)%nat.
Proof. induction A as [|c A IH]; simpl; [done|]. by rewrite IH. Qed.

Lemma string_app_assoc A B C : (A +:+ B) +:+ C = A +:+ B +:+ C.
Proof.
  induction A as [|c A IH]; [done|].
  change (String c ((A +:+ B) +:+ C) = String c (A +:+ B +:+ C)).
  by rewrite IH.
Qed.

(** The key [A.B], with no dot in [B], is cut into [A] and [B]. *)
Lemma slices_of_key A B :
  "."%char ∉ list_ascii_of_string B →
  strings.LastIndex_dot (A +:+ "." +:+ B) = Z.of_nat (String.length A) ∧
  strings.slice_to (A +:+ "." +:+ B) (strings.LastIndex_dot (A +:+ "." +:+ B)) = A ∧
  strings.slice_from (A +:+ "." +:+ B)
    (strings.LastIndex_dot (A +:+ "." +:+ B) + 1) = B.
Proof.
  intros HB. unfold strings.LastIndex_dot.
  rewrite LastIndex_dot_from_split by done. rewrite Z.add_0_l.
  split; [done|]. unfold strings.slice_to, strings.slice_from.
  rewrite Nat2Z.id. split; [apply substring_prefix_app|].
  assert (Happ : A +:+ "." +:+ B = (A +:+ ".") +:+ B)
    by (symmetry; apply string_app_assoc).
  assert (Hlen : Z.to_nat (Z.of_nat (String.length A) + 1)
                 = String.length (A +:+ ".")).
  { rewrite (string_length_app A "."). simpl. lia. }
  rewrite Hlen, Happ. apply substring_suffix_app.
Qed.

(** Every key has no dot, or is [A.B] with no dot in [B]. *)
Lemma key_cases key :
  "."%char ∉ list_ascii_of_string key ∨
  ∃ A B, key = A +:+ "." +:+ B ∧ "."%char ∉ list_ascii_of_string B.
Proof.
  induction key as [|c key IH]; simpl.
  - left. apply not_elem_of_nil.
  - destruct IH as [Hno|(A & B & -> & HB)].
    + destruct (Ascii.eqb_spec c ".") as [->|Hc].
      * right. exists "", key. by split.
      * left. by apply not_elem_of_cons.
    + right. exists (String c A), B. by split.
Qed.

Lemma prefix_app s : ∀ rest, String.prefix s (s +:+ rest) = true.
Proof.
  induction s as [|c s IH]; intros rest.
  - by destruct rest.
  - change (String c s +:+ rest) with (String c (s +:+ rest)). simpl.
    destruct (ascii_dec c c); [apply IH|done].
Qed.

Lemma Contains_unfold s sub :
  strings.Contains s sub =
  String.prefix sub s ||
  match s with
  | EmptyString => false
  | String _ rest => strings.Contains rest sub
  end.
Proof. by destruct s. Qed.

Lemma Contains_prefix s sub :
  String.prefix sub s = true → strings.Contains s sub = true.
Proof. intros H. rewrite Contains_unfold. by rewrite H. Qed.

(** A string contains what it is built around. *)
Lemma Contains_app pre sub post :
  strings.Contains (pre +:+ sub +:+ post) sub = true.
Proof.
  induction pre as [|c pre IH].
  - change ("" +:+ sub +:+ post) with (sub +:+ post).
    apply Contains_prefix, prefix_app.
  - change (String c pre +:+ sub +:+ post)
      with (String c (pre +:+ sub +:+ post)).
    rewrite Contains_unfold, IH. apply orb_true_r.
Qed.

Lemma string_app_nil_r s : s +:+ "" = s.
Proof.
  induction s as [|c s IH]; [done|].
  change (String c (s +:+ "") = String c s). by rewrite IH.
Qed.

Lemma Contains_app_r pre sub : strings.Contains (pre +:+ sub) sub = true.
Proof.
  rewrite <- (string_app_nil_r sub) at 1. apply Contains_app.
Qed.

End string_facts.

(** ** The server: resolution of a service-method key *)

Section resolution.
Import go codec reflect gpmd.

Lemma findService_no_dot (s : Server) key :
  "."%char ∉ list_ascii_of_string key →
  findService s key =
  (None, None,
   Some ("rpc server: service/method request ill-formed:" +:+ key)).
Proof.
  intros Hk. unfold findService, strings.LastIndex_dot.
  by rewrite LastIndex_dot_from_no_dot.
Qed.

Lemma findService_split (s : Server) A B :
  "."%char ∉ list_ascii_of_string B →
  findService s (A +:+ "." +:+ B) =
  match serviceMap s !! A with
  | None => (None, None, Some ("rpc server: can't find service" +:+ A))
  | Some svc =>
      match smethod svc !! B with
      | None =>
          (Some svc, None, Some ("rpc server: can't find method " +:+ B))
      | Some mType => (Some svc, Some mType, None)
      end
  end.
Proof.
  intros HB. destruct (slices_of_key A B HB) as (Hdot & HA & HBs).
  unfold findService. rewrite HA, HBs, Hdot.
  destruct (Z.ltb_spec (Z.of_nat (String.length A)) 0); [lia|done].
Qed.

(** The texts of the three errors differ, whatever the key. *)
Lemma findService_errors_differ key A B :
  "rpc server: service/method request ill-formed:" +:+ key
    ≠ "rpc server: can't find service" +:+ A ∧
  "rpc server: service/method request ill-formed:" +:+ key
    ≠ "rpc server: can't find method " +:+ B ∧
  "rpc server: can't find service" +:+ A
    ≠ "rpc server: can't find method " +:+ B.
Proof.
  repeat split; intros H; vm_compute in H; discriminate H.
Qed.

(** An ill-formed request is answered in the loop of [serveCodec], with the
    error of [readRequest] in the header and [invalidRequest] as body. *)
Lemma serveCodec_iter_resolution_error (s : Server) cc hd b rest svc0 mt err :
  incoming cc = mkFrame hd b :: rest →
  findService s (ServiceMethod hd) = (svc0, mt, Some err) →
  serveCodec_iter s cc =
  Ret (Continue {| incoming := rest; body := Some b;
                   written := written cc ++ [(set_Error err hd, invalidRequest)] |}).
Proof.
  intros Hin Hf. unfold serveCodec_iter, readRequest, readRequestHeader, ReadHeader.
  rewrite Hin. simpl. rewrite Hf. by destruct mt.
Qed.

End resolution.

Section resolution_claim.
Import go codec reflect gpmd.

(** C5: [findService] cuts the key at its last dot. A key with no dot fails
    with the ill-formed error; a key [A.B] (no dot in [B]) fails with the
    unknown-service error when [A] is not registered, and with the
    unknown-method error, whose text contains [can't find method B], when
    [A] is registered without a method [B]; it succeeds otherwise. The three
    error texts are pairwise different, every key falls under one of the
    cases, and the loop of [serveCodec] answers such a request with that
    error in the header of the response. *)
Theorem findService_fails_with_three_distinct_errors (s : Server) :
  (∀ key, "."%char ∉ list_ascii_of_string key ∨
          ∃ A B, key = A +:+ "." +:+ B ∧ "."%char ∉ list_ascii_of_string B) ∧
  (∀ key, "."%char ∉ list_ascii_of_string key →
     findService s key =
     (None, None,
      Some ("rpc server: service/method request ill-formed:" +:+ key))) ∧
  (∀ A B, "."%char ∉ list_ascii_of_string B → serviceMap s !! A = None →
     findService s (A +:+ "." +:+ B) =
     (None, None, Some ("rpc server: can't find service" +:+ A))) ∧
  (∀ A B svc0, "."%char ∉ list_ascii_of_string B →
     serviceMap s !! A = Some svc0 → smethod svc0 !! B = None →
     findService s (A +:+ "." +:+ B) =
     (Some svc0, None, Some ("rpc server: can't find method " +:+ B)) ∧
     strings.Contains ("rpc server: can't find method " +:+ B)
                      ("can't find method " +:+ B) = true) ∧
  (∀ A B svc0 m, "."%char ∉ list_ascii_of_string B →
     serviceMap s !! A = Some svc0 → smethod svc0 !! B = Some m →
     findService s (A +:+ "." +:+ B) = (Some svc0, Some m, None)) ∧
  (∀ key A B,
     "rpc server: service/method request ill-formed:" +:+ key
       ≠ "rpc server: can't find service" +:+ A ∧
     "rpc server: service/method request ill-formed:" +:+ key
       ≠ "rpc server: can't find method " +:+ B ∧
     "rpc server: can't find service" +:+ A
       ≠ "rpc server: can't find method " +:+ B) ∧
  (∀ cc hd b rest svc0 mt err,
     incoming cc = mkFrame hd b :: rest →
     findService s (ServiceMethod hd) = (svc0, mt, Some err) →
     serveCodec_iter s cc =
     Ret (Continue {| incoming := rest; body := Some b;
                      written := written cc
                                 ++ [(set_Error err hd, invalidRequest)] |})).
Proof.
  split; [apply key_cases|].
  split; [apply findService_no_dot|].
  split; [intros A B HB HA; by rewrite findService_split, HA|].
  split.
  { intros A B svc0 HB HA Hm. rewrite findService_split, HA, Hm by done.
    split; [done|].
    change "rpc server: can't find method "
      with ("rpc server: " +:+ "can't find method ").
    rewrite string_app_assoc. apply Contains_app_r. }
  split; [intros A B svc0 m HB HA Hm; by rewrite findService_split, HA, Hm|].
  split; [apply findService_errors_differ|].
  apply serveCodec_iter_resolution_error.
Qed.

End resolution_claim.

Section resolution_witness.
Import go codec reflect gpmd.

(** Witness of C5: [Foo] is registered with its method [Sum], the client
    calls [Foo.Nope]. *)
Lemma Foo_Nope_witness :
  serveCodec_iter (main.server_of main.foo)
    (main.one_request "Foo.Nope" (VStruct [VInt 3; VInt 4])) =
  Ret (Continue
         {| incoming := []; body := Some (inl (VStruct [VInt 3; VInt 4]));
            written := [(mkHeader "Foo.Nope" 1
                           "rpc server: can't find method Nope",
                         invalidRequest)] |}).
Proof.
  destruct (findService_fails_with_three_distinct_errors
              (main.server_of main.foo)) as (_ & _ & _ & _ & _ & _ & H).
  apply (H (main.one_request "Foo.Nope" (VStruct [VInt 3; VInt 4]))
           (mkHeader "Foo.Nope" 1 "") _ []
           (serviceMap (main.server_of main.foo) !! "Foo") None
           "rpc server: can't find method Nope").
  - reflexivity.
  - reflexivity.
Defined.

End resolution_witness.

(** ** The server: the carriers of a request *)

Section carriers.
Import go codec reflect gpmd.

(** [newReply] panics on every reply type that has no element type. *)
Lemma newReply_panics_without_Elem (m : methodType) :
  kind (ReplyType m) ∉ [Array; Chan; Map; Pointer; Slice] →
  ∃ msg, newReply m = Panic msg.
Proof.
  intros Hk. unfold newReply, Type_Elem.
  destruct (kind (ReplyType m)); try (by eexists);
    exfalso; apply Hk; set_solver.
Qed.


(** C9: registration does not ask for a pointer as reply type. The method
    [Bad] of [Bar] has three inputs (receiver, exported argument, exported
    reply that is not a pointer) and the single result [error];
    [Register] records it, [findService] resolves [Bar.Bad] to it,
    [newReply] panics on it, and so does [readRequest] on every request
    addressed to it. *)
Theorem registered_method_with_non_pointer_reply_makes_newReply_panic :
  ∃ (rcvr : object) (m : Method) (s : Server) (svc0 : service)
    (mt : methodType),
    m ∈ obj_methods rcvr ∧
    (∃ recv arg reply,
       In (MType m) = [recv; arg; reply] ∧
       IsExported (Name arg) = true ∧ IsExported (Name reply) = true ∧
       kind reply ≠ Pointer) ∧
    Out (MType m) = [errorType] ∧
    Register rcvr NewServer = Ret (None, s) ∧
    findService s "Bar.Bad" = (Some svc0, Some mt, None) ∧
    method mt = m ∧
    (∃ msg, newReply mt = Panic msg) ∧
    (∀ cc hd b rest,
       incoming cc = mkFrame hd b :: rest → ServiceMethod hd = "Bar.Bad" →
       ∃ msg, readRequest s cc = Panic msg).
Proof.
  exists main.bar, main.Bar_Bad, (main.server_of main.bar).
  eexists _, {| method := main.Bar_Bad; ArgType := main.Args_type;
                ReplyType := main.Args_type; numCalls := 0 |}.
  split; [apply list_elem_of_here|].
  split; [by exists (main.ptr_to main.Bar_type), main.Args_type, main.Args_type|].
  split; [done|].
  assert (Hfind : findService (main.server_of main.bar) "Bar.Bad" =
            (Some (mkService "Bar" (main.ptr_to main.Bar_type) [main.Bar_Bad]
                     (VPtr (VInt 0)) (registerMethod [main.Bar_Bad])),
             Some {| method := main.Bar_Bad; ArgType := main.Args_type;
                     ReplyType := main.Args_type; numCalls := 0 |},
             None)) by reflexivity.
  split; [reflexivity|].
  split; [exact Hfind|].
  split; [done|].
  split; [by eexists|].
  intros cc hd b rest Hin Hsm.
  unfold readRequest, readRequestHeader, ReadHeader. rewrite Hin.
  cbn [fheader fst snd]. rewrite Hsm, Hfind.
  by eexists.
Qed.

End carriers.

(** ** The client: options and dialling *)

Section options.
Import go codec reflect gpmd.
Implicit Types (st : gmap positive Option) (opts : list (option positive)).

Lemma load_Ret p st o : load p st = Ret o ↔ st !! p = Some o.
Proof. unfold load. destruct (st !! p); split; congruence. Qed.

Lemma load_Some p st o : st !! p = Some o → load p st = Ret o.
Proof. apply load_Ret. Qed.

(** What [parseOptions] does on one pointer to an [Option] in the store. *)
Lemma parseOptions_single st q o0 :
  st !! DefaultOption = Some DefaultOption_init →
  st !! q = Some o0 →
  parseOptions [Some q] st =
  Ret ((Some q, None),
       <[q := {| OMagicNumber := MagicNumber;
                 CodeType := if String.eqb (CodeType o0) ""
                             then GobType else CodeType o0;
                 ConnectTimeout := ConnectTimeout o0;
                 HandleTimeout := HandleTimeout o0 |}]> st).
Proof.
  intros Hd Hq. unfold parseOptions. simpl.
  rewrite (load_Some _ _ _ Hd). simpl.
  rewrite (load_Some _ _ _ Hq). simpl.
  rewrite (load_Some q _ _ (lookup_insert_eq _ _ _)). simpl.
  destruct (String.eqb_spec (CodeType o0) "") as [He|Hne]; [|done].
  destruct (decide (q = DefaultOption)) as [->|Hne].
  { rewrite Hd in Hq. injection Hq as <-. done. }
  rewrite (load_Some DefaultOption _ DefaultOption_init); simpl.
  - by rewrite insert_insert_eq.
  - by rewrite lookup_insert_ne.
Qed.

(** The cases in which [parseOptions] returns an [Option]. *)
Lemma parseOptions_accepts opts st p st' :
  st !! DefaultOption = Some DefaultOption_init →
  parseOptions opts st = Ret ((Some p, None), st') →
  (p = DefaultOption ∧ st' = st ∧ (opts = [] ∨ ∃ rest, opts = None :: rest)) ∨
  (∃ o0, opts = [Some p] ∧ st !! p = Some o0).
Proof.
  intros Hd Hp. destruct opts as [|[q|] rest].
  - left. injection Hp as <- <-. eauto.
  - right. destruct rest as [|x rest].
    2:{ unfold parseOptions in Hp.
        destruct (Z.ltb_spec 1 (Z.of_nat (length (Some q :: x :: rest))))
          as [_|Hlen]; [done|]. simpl length in Hlen. lia. }
    destruct (st !! q) as [o0|] eqn:Hq.
    + rewrite (parseOptions_single st q o0 Hd Hq) in Hp.
      injection Hp as <- <-. eauto.
    + unfold parseOptions in Hp. simpl in Hp.
      unfold load in Hp. rewrite Hd, Hq in Hp. done.
  - left. injection Hp as <- <-. eauto.
Qed.

Lemma parseOptions_magic opts st p st' :
  st !! DefaultOption = Some DefaultOption_init →
  parseOptions opts st = Ret ((Some p, None), st') →
  ∃ o, st' !! p = Some o ∧ OMagicNumber o = MagicNumber ∧ CodeType o ≠ "" ∧
       st' !! DefaultOption = Some DefaultOption_init.
Proof.
  intros Hd Hp.
  destruct (parseOptions_accepts opts st p st' Hd Hp)
    as [(-> & -> & _)|(o0 & -> & Hq)].
  - exists DefaultOption_init. by repeat split.
  - rewrite (parseOptions_single st p o0 Hd Hq) in Hp. injection Hp as <-.
    eexists. split; [apply lookup_insert_eq|]. simpl. split; [done|].
    split.
    + destruct (String.eqb_spec (CodeType o0) ""); [done|done].
    + destruct (decide (p = DefaultOption)) as [->|Hne].
      * rewrite lookup_insert_eq. rewrite Hd in Hq. by injection Hq as <-.
      * by rewrite lookup_insert_ne.
Qed.

End options.

Section dialling.
Import go codec reflect gpmd.
Implicit Types (st : gmap positive Option) (opts : list (option positive)).

(** The handshake [Dial] writes is the [Option] [parseOptions] returned. *)
Lemma Dial_handshake fmt nd sched opts st d c conn' :
  st !! DefaultOption = Some DefaultOption_init →
  (∀ t conn, nd t = inl conn → conn_options conn = []) →
  Dial fmt None nd sched opts st = Ret d →
  d_client d = Some c → d_conn d = Some conn' →
  ∃ p st' o, parseOptions opts st = Ret ((Some p, None), st') ∧
             st' !! p = Some o ∧ conn_options conn' = [o].
Proof.
  intros Hd Hfresh HD Hc Hconn. unfold Dial, dialTimeout in HD.
  destruct (parseOptions opts st) as [[[[p|] [e|]] st']| |] eqn:Hp;
    simpl in HD; try done; try (injection HD as <-; done).
  destruct (parseOptions_magic opts st p st' Hd Hp) as (o & Ho & _).
  exists p, st', o. split; [done|]. split; [done|].
  unfold load in HD. rewrite Ho in HD. simpl in HD.
  destruct (nd (ConnectTimeout o)) as [conn|e] eqn:Hnd;
    [|injection HD as <-; done].
  assert (HN : NewClient None conn p st' ≫=
               (λ res, Ret {| d_client := res.1.1; d_err := res.1.2;
                              d_conn := Some (close_on_error res.1.2 res.2);
                              d_store := st' |}) = Ret d).
  { destruct (ConnectTimeout o =? 0); [done|].
    destruct sched; [injection HD as <-; done|done]. }
  clear HD. unfold NewClient, load in HN. rewrite Ho in HN. simpl in HN.
  destruct (NewCodecFuncMap !! CodeType o); simpl in HN;
    injection HN as <-; simpl in *; [|done].
  injection Hconn as <-. simpl. by rewrite (Hfresh _ _ Hnd).
Qed.

End dialling.

Section options_claim.
Import go codec reflect gpmd.

(** C10: with [DefaultOption] as the program initialises it, whenever
    [parseOptions] returns an [Option] (no arguments, a nil first argument,
    or a single pointer), that [Option] has the protocol's magic number and
    a non-empty codec type, and [DefaultOption] is left as it was; for a
    single pointer the [Option] behind it is updated in place: the magic
    number is overwritten, an empty codec type becomes the default one, the
    timeouts stay. Hence [ServeConn] does not reject it for its magic
    number, and the handshake a client built by [Dial] writes is such an
    [Option]. *)
Theorem parseOptions_returns_the_protocol_magic_number
    (opts : list (option positive)) (st : gmap positive Option)
    (p : positive) (st' : gmap positive Option) :
  st !! DefaultOption = Some DefaultOption_init →
  parseOptions opts st = Ret ((Some p, None), st') →
  (∃ o, st' !! p = Some o ∧ OMagicNumber o = MagicNumber ∧
        CodeType o ≠ "" ∧ ServeConn_handshake (Some o) ≠ BadMagicNumber) ∧
  st' !! DefaultOption = Some DefaultOption_init ∧
  (∀ o0, opts = [Some p] → st !! p = Some o0 →
     st' = <[p := {| OMagicNumber := MagicNumber;
                     CodeType := if String.eqb (CodeType o0) ""
                                 then GobType else CodeType o0;
                     ConnectTimeout := ConnectTimeout o0;
                     HandleTimeout := HandleTimeout o0 |}]> st) ∧
  (∀ fmt nd sched d c conn',
     (∀ t conn, nd t = inl conn → conn_options conn = []) →
     Dial fmt None nd sched opts st = Ret d →
     d_client d = Some c → d_conn d = Some conn' →
     ∀ o', o' ∈ conn_options conn' →
           ServeConn_handshake (Some o') ≠ BadMagicNumber).
Proof.
  intros Hd Hp.
  destruct (parseOptions_magic opts st p st' Hd Hp) as (o & Ho & Hm & Hc & Hd').
  assert (Hhs : ServeConn_handshake (Some o) ≠ BadMagicNumber).
  { unfold ServeConn_handshake. rewrite Hm. simpl.
    by destruct (NewCodecFuncMap !! CodeType o). }
  split; [by exists o|]. split; [done|]. split.
  - intros o0 -> Hq. rewrite (parseOptions_single st p o0 Hd Hq) in Hp.
    by injection Hp as <-.
  - intros fmt nd sched d c conn' Hfresh HD Hcl Hconn o' Hin.
    destruct (Dial_handshake fmt nd sched opts st d c conn' Hd Hfresh HD Hcl Hconn)
      as (p2 & st2 & o2 & Hp2 & Ho2 & Hopt).
    rewrite Hp in Hp2. injection Hp2 as <- <-.
    rewrite Ho in Ho2. injection Ho2 as <-.
    rewrite Hopt in Hin. apply list_elem_of_singleton in Hin. by subst.
Qed.

(** Witness of C10: the caller passes an [Option] with a magic number of its
    own and no codec type. *)
Lemma parseOptions_witness :
  (∃ o, <[2%positive := mkOption MagicNumber GobType 5 0]>
          (<[2%positive := mkOption 42 "" 5 0]> store_init) !! 2%positive
        = Some o ∧
        OMagicNumber o = MagicNumber ∧ CodeType o ≠ "" ∧
        ServeConn_handshake (Some o) ≠ BadMagicNumber).
Proof.
  refine (proj1 (parseOptions_returns_the_protocol_magic_number
                   [Some 2%positive]
                   (<[2%positive := mkOption 42 "" 5 0]> store_init)
                   2%positive _ _ _)).
  - reflexivity.
  - reflexivity.
Defined.

End options_claim.

Section connect_timeout_claim.
Import go codec reflect gpmd.

(** C3 (amended): once [parseOptions] has returned the [Option] [o]:
    when the dialer fails, [dialTimeout] returns the dialer's error as it
    is, and no connection was opened; when the dialer succeeds,
    [ConnectTimeout] is not zero and the timer fires before the client is
    built, [dialTimeout] closes the connection and returns the error
    [rpc client: connect timeout: expect within <d>], which contains
    [connect timeout]. *)
Theorem dialTimeout_timer_closes_connection_and_reports_timeout
    (fmt : Z → string)
    (f : Conn → positive → gmap positive Option →
         outcome ((option Client * option string) * Conn))
    (nd : Z → Conn + string) (sched : race)
    (opts : list (option positive)) (st st' : gmap positive Option)
    (p : positive) (o : Option) :
  parseOptions opts st = Ret ((Some p, None), st') →
  st' !! p = Some o →
  (∀ e, nd (ConnectTimeout o) = inr e →
     dialTimeout fmt f nd sched opts st =
     Ret {| d_client := None; d_err := Some e; d_conn := None;
            d_store := st' |}) ∧
  (∀ conn, nd (ConnectTimeout o) = inl conn →
     ConnectTimeout o ≠ 0 → sched = TimerFirst →
     dialTimeout fmt f nd sched opts st =
     Ret {| d_client := None;
            d_err := Some ("rpc client: connect timeout: expect within "
                           +:+ fmt (ConnectTimeout o));
            d_conn := Some (Conn_Close conn); d_store := st' |} ∧
     strings.Contains ("rpc client: connect timeout: expect within "
                       +:+ fmt (ConnectTimeout o)) "connect timeout" = true).
Proof.
  intros Hp Ho. unfold dialTimeout. rewrite Hp. simpl.
  unfold load. rewrite Ho. simpl. split.
  - intros e ->. done.
  - intros conn -> Hne ->. apply Z.eqb_neq in Hne. rewrite Hne.
    split; [done|].
    reflexivity.
Qed.

(** Witness of C3 (amended): a connection is opened, the timeout is
    100 ms, the timer fires first. *)
Lemma dialTimeout_timer_witness :
  dialTimeout (λ _, "100ms") (NewClient None)
    (λ _, inl (mkConn [] 0)) TimerFirst [Some 2%positive]
    (<[2%positive := mkOption 0 "" 100000000 0]> store_init) =
  Ret {| d_client := None;
         d_err := Some "rpc client: connect timeout: expect within 100ms";
         d_conn := Some (mkConn [] 1);
         d_store := <[2%positive := mkOption MagicNumber GobType 100000000 0]>
                      (<[2%positive := mkOption 0 "" 100000000 0]> store_init) |}.
Proof.
  refine (proj1 (proj2 (dialTimeout_timer_closes_connection_and_reports_timeout
           (λ _, "100ms") (NewClient None) (λ _, inl (mkConn [] 0)) TimerFirst
           [Some 2%positive]
           (<[2%positive := mkOption 0 "" 100000000 0]> store_init)
           _ 2%positive (mkOption MagicNumber GobType 100000000 0) _ _)
           (mkConn [] 0) eq_refl _ eq_refl)).
  - reflexivity.
  - reflexivity.
  - simpl. discriminate.
Defined.

(** Counterexample to C3 as stated: the address is unreachable, so the
    dialer fails (here with the error of a TCP dial that timed out), and
    with [ConnectTimeout] = 100 ms [dialTimeout] returns that error, which
    does not contain [connect timeout]. *)
Lemma dial_unreachable_returns_the_dialer_error :
  ∃ d e,
    dialTimeout (λ _, "100ms") (NewClient None)
      (λ _, inr "dial tcp 10.255.255.1:9999: i/o timeout") TimerFirst
      [Some 2%positive]
      (<[2%positive := mkOption 0 "" 100000000 0]> store_init) = Ret d ∧
    d_err d = Some e ∧
    e = "dial tcp 10.255.255.1:9999: i/o timeout" ∧
    strings.Contains e "connect timeout" = false.
Proof.
  eexists _, _. split; [reflexivity|].
  split; [reflexivity|]. split; [reflexivity|]. vm_compute. reflexivity.
Qed.

End connect_timeout_claim.

(** ** The server: [handleRequest] *)

Section handle_request.
Import go codec reflect gpmd.

Variable fmt : Z → string.

Lemma handle_timeout_error_not_empty timeout :
  handle_timeout_error fmt timeout ≠ "".
Proof. done. Qed.

(** [readRequest] on a call of [Foo.Sum] yields [Foo_Sum_request]. *)
Lemma readRequest_Foo_Sum args :
  readRequest (main.server_of main.foo) (main.one_request "Foo.Sum" args) =
  Ret ((Some (main.Foo_Sum_request args), None),
       {| incoming := []; body := None; written := [] |}).
Proof. reflexivity. Qed.

(** What holds in every state of [handleRequest] on a request whose method
    returns a nil error: the worker never reaches the branch that sends, so
    the only response that can be written is the one of the timer. *)
Lemma hstep_success_invariant req s m a r timeout cc st :
  svc req = Some s → mType req = Some m →
  argv req = Some a → replyv req = Some r →
  (call s m a r).1.2 = None →
  rtc (hstep fmt req timeout) (hinit req cc) st →
  (hs_worker st = WCall ∨ hs_worker st = WCalled None ∨
   hs_worker st = WCheck None ∨ hs_worker st = WReturned) ∧
  (∀ resp, resp ∈ written (hs_cc st) → resp ∈ written cc ∨ Error resp.1 ≠ "") ∧
  (timeout = 0 →
   written (hs_cc st) = written cc ∧
   (hs_handler st = HStart ∨ hs_handler st = HRecvCalled ∨
    hs_handler st = HRecvSent)).
Proof.
  intros Hs Hm Ha Hr Hnil Hrtc.
  revert st Hrtc. apply rtc_ind_r; [|intros st st' Hrtc Hstep IH].
  - simpl. split; [by left|]. split; [by left|]. intros _. split; [done|by left].
  - destruct IH as (Hw & Hout & Hzero).
    inversion Hstep as
      [st0 s0 m0 a0 r0 Hwk Hs0 Hm0 Ha0 Hr0 | st0 Hh | st0 err Hwk Hh
      | st0 e Hwk | st0 Hwk | st0 Hwk Hh | st0 Hh]; subst;
      cbn [hs_worker hs_cc hs_handler].
    + rewrite Hs in Hs0. rewrite Hm in Hm0. rewrite Ha in Ha0.
      rewrite Hr in Hr0. simplify_eq. rewrite Hnil.
      split; [by right; left|]. split; [done|done].
    + split; [done|]. split; [done|]. intros ->.
      destruct (Hzero eq_refl) as [Hwr _]. split; [done|]. right. by left.
    + split.
      { destruct Hw as [Hw|[Hw|[Hw|Hw]]]; rewrite Hw in Hwk; simplify_eq.
        right. right. by left. }
      split; [done|]. intros Ht. destruct (Hzero Ht) as [Hwr _].
      split; [done|]. right. by right.
    + destruct Hw as [Hw|[Hw|[Hw|Hw]]]; rewrite Hw in Hwk; simplify_eq.
    + split; [by right; right; right|]. done.
    + destruct Hw as [Hw|[Hw|[Hw|Hw]]]; rewrite Hw in Hwk; simplify_eq.
    + split; [done|]. split.
      * intros resp Hin. unfold sendResponse, Write in Hin. simpl in Hin.
        apply elem_of_app in Hin as [Hin|Hin]; [by apply Hout|].
        apply list_elem_of_singleton in Hin as ->. right. simpl.
        apply handle_timeout_error_not_empty.
      * intros Ht. destruct (Hzero Ht) as [_ [Hh'|[Hh'|Hh']]];
          rewrite Hh' in Hh; simplify_eq.
Qed.

(** The other branch of the worker: when the method returns an error and
    there is no handle timeout, [handleRequest] can run to its end, and then
    it has written one response, with that error. *)
Lemma handleRequest_sends_the_error_of_a_failed_call req s m a r e cc :
  svc req = Some s → mType req = Some m →
  argv req = Some a → replyv req = Some r →
  (call s m a r).1.2 = Some e →
  ∃ st, rtc (hstep fmt req 0) (hinit req cc) st ∧
        hs_handler st = HReturned ∧
        written (hs_cc st)
          = written cc ++ [(set_Error e (h req), invalidRequest)].
Proof.
  intros Hs Hm Ha Hr He. eexists. split.
  - eapply rtc_l; [by apply (step_call _ _ _ _ s m a r)|].
    eapply rtc_l; [by apply step_start|].
    eapply rtc_l; [apply (step_called _ _ _ _ (Some e));
                   [cbn [hs_worker]; by rewrite He|by left]|].
    eapply rtc_l; [by apply (step_error _ _ _ _ e)|].
    eapply rtc_l; [by apply step_sent|].
    apply rtc_refl.
  - done.
Qed.

End handle_request.

Section handle_request_claim.
Import go codec reflect gpmd.

(** C1 (what the code does instead): when the method called for a request
    returns a nil error, [handleRequest] never writes a response with an
    empty error: the worker returns without calling [sendResponse], so the
    only response that can follow is the one of the timer, with its error
    text; and with the timeout 0 nothing is written at all and
    [handleRequest] never returns. *)
Theorem handleRequest_writes_no_response_after_a_nil_error
    (fmt : Z → string) (req : request) (s : service) (m : methodType)
    (a r : Value) (timeout : Z) (cc : Codec) (st : hstate) :
  svc req = Some s → mType req = Some m →
  argv req = Some a → replyv req = Some r →
  (call s m a r).1.2 = None →
  rtc (hstep fmt req timeout) (hinit req cc) st →
  (∀ resp, resp ∈ written (hs_cc st) → resp ∈ written cc ∨ Error resp.1 ≠ "") ∧
  (timeout = 0 →
   written (hs_cc st) = written cc ∧ hs_handler st ≠ HReturned).
Proof.
  intros Hs Hm Ha Hr Hnil Hrtc.
  destruct (hstep_success_invariant fmt req s m a r timeout cc st
              Hs Hm Ha Hr Hnil Hrtc) as (_ & Hout & Hzero).
  split; [done|]. intros Ht. destruct (Hzero Ht) as [Hw Hh].
  split; [done|]. destruct Hh as [Hh|[Hh|Hh]]; rewrite Hh; discriminate.
Qed.

(** Witness of C1: [Foo.Sum] is called with [{Num1: 3, Num2: 4}] and no
    handle timeout. The method runs and leaves 7 in the reply, the worker
    returns, the handler stays blocked on [<-sent], and nothing was
    written. *)
Lemma Foo_Sum_witness :
  rtc (hstep (λ _, "0s") (main.Foo_Sum_request (VStruct [VInt 3; VInt 4])) 0)
      (hinit (main.Foo_Sum_request (VStruct [VInt 3; VInt 4]))
             (mkCodec [] None []))
      {| hs_h := mkHeader "Foo.Sum" 1 "";
         hs_replyv := Some (VPtr (VInt 7));
         hs_mType := Some {| method := main.Foo_Sum;
                             ArgType := main.Args_type;
                             ReplyType := main.ptr_to main.int_type;
                             numCalls := 1 |};
         hs_cc := mkCodec [] None [];
         hs_worker := WReturned; hs_handler := HRecvSent |} ∧
  written (mkCodec [] None []) = [] ∧ HRecvSent ≠ HReturned.
Proof.
  assert (Hrun :
    rtc (hstep (λ _, "0s") (main.Foo_Sum_request (VStruct [VInt 3; VInt 4])) 0)
      (hinit (main.Foo_Sum_request (VStruct [VInt 3; VInt 4]))
             (mkCodec [] None []))
      {| hs_h := mkHeader "Foo.Sum" 1 "";
         hs_replyv := Some (VPtr (VInt 7));
         hs_mType := Some {| method := main.Foo_Sum;
                             ArgType := main.Args_type;
                             ReplyType := main.ptr_to main.int_type;
                             numCalls := 1 |};
         hs_cc := mkCodec [] None [];
         hs_worker := WReturned; hs_handler := HRecvSent |}).
  { eapply rtc_l.
    { apply (step_call _ _ _ _ main.Foo_service main.Foo_Sum_methodType
               (VStruct [VInt 3; VInt 4]) (New main.int_type)); reflexivity. }
    eapply rtc_l; [apply step_start; reflexivity|].
    eapply rtc_l; [eapply step_called; [reflexivity|left; reflexivity]|].
    eapply rtc_l; [apply step_success; reflexivity|].
    apply rtc_refl. }
  split; [exact Hrun|].
  exact (proj2 (handleRequest_writes_no_response_after_a_nil_error
                  (λ _, "0s") (main.Foo_Sum_request (VStruct [VInt 3; VInt 4]))
                  main.Foo_service main.Foo_Sum_methodType
                  (VStruct [VInt 3; VInt 4]) (New main.int_type) 0
                  (mkCodec [] None []) _
                  eq_refl eq_refl eq_refl eq_refl eq_refl Hrun) eq_refl).
Defined.

End handle_request_claim.

(** ** The client: every call is signalled once *)

Section counting.
Import gpmd.
Implicit Types (m : gmap Z nat) (l : list nat) (c : nat).

Lemma times_nil c : times c [] = 0%nat.
Proof. done. Qed.

Lemma times_cons c x l :
  times c (x :: l) = ((if decide (x = c) then 1 else 0) + times c l)%nat.
Proof.
  unfold times. simpl. destruct (Nat.eq_dec x c), (decide (x = c)); done.
Qed.

Lemma times_app c l l' : times c (l ++ l') = (times c l + times c l')%nat.
Proof. apply count_occ_app. Qed.

Lemma times_snoc c l x :
  times c (l ++ [x]) = (times c l + if decide (x = c) then 1 else 0)%nat.
Proof. rewrite times_app, times_cons, times_nil. lia. Qed.

Lemma times_Permutation c l l' : l ≡ₚ l' → times c l = times c l'.
Proof. intros H. unfold times. by apply Permutation_count_occ. Qed.

Lemma times_not_in c l : c ∉ l → times c l = 0%nat.
Proof.
  intros H. apply count_occ_not_In. by rewrite <- list_elem_of_In.
Qed.

(** Taking an entry out of [pending] takes one occurrence of its call. *)
Lemma times_pending_delete m k c0 c :
  m !! k = Some c0 →
  times c (map_to_list m).*2 =
  ((if decide (c0 = c) then 1 else 0)
   + times c (map_to_list (delete k m)).*2)%nat.
Proof.
  intros Hk. rewrite <- times_cons.
  apply times_Permutation.
  change (c0 :: (map_to_list (delete k m)).*2)
    with (((k, c0) :: map_to_list (delete k m)).*2).
  apply fmap_Permutation. symmetry. by apply map_to_list_delete.
Qed.

(** Writing an entry of [pending] adds one occurrence of the new call, and
    drops the call that was under the key. *)
Lemma times_pending_insert m k c0 c :
  times c (map_to_list (<[k := c0]> m)).*2 =
  ((if decide (c0 = c) then 1 else 0)
   + times c (map_to_list (delete k m)).*2)%nat.
Proof.
  rewrite <- insert_delete_eq, <- times_cons.
  apply times_Permutation.
  change (c0 :: (map_to_list (delete k m)).*2)
    with (((k, c0) :: map_to_list (delete k m)).*2).
  apply fmap_Permutation, map_to_list_insert, lookup_delete_eq.
Qed.

Lemma times_pending_delete_None m k c :
  m !! k = None →
  times c (map_to_list (delete k m)).*2 = times c (map_to_list m).*2.
Proof. intros Hk. by rewrite delete_id. Qed.

End counting.

Section client_invariant.
Import go codec gpmd.

Lemma created_alter_calls (f : Call → Call) k (calls : gmap nat Call) c :
  match alter f k calls !! c with Some _ => 1%nat | None => 0%nat end =
  match calls !! c with Some _ => 1%nat | None => 0%nat end.
Proof.
  rewrite lookup_alter. case_decide; [subst|done]. by destruct (calls !! c).
Qed.

Lemma created_foldr_alter (f : Call → Call) (l : list nat)
    (calls : gmap nat Call) c :
  match foldr (λ call cs, alter f call cs) calls l !! c with
  | Some _ => 1%nat | None => 0%nat end =
  match calls !! c with Some _ => 1%nat | None => 0%nat end.
Proof.
  induction l as [|x l IH]; simpl; [done|]. by rewrite created_alter_calls.
Qed.

Lemma registerCall_ok call client calls seq0 client' calls' :
  registerCall call client calls = ((seq0, None), client', calls') →
  shutdown client = false ∧ seq0 = seq client ∧
  shutdown client' = false ∧
  pending client' = <[seq client := call]> (pending client) ∧
  seq client' = uint64_wrap (seq client + 1) ∧
  calls' = alter (set_CSeq (seq client)) call calls.
Proof.
  unfold registerCall. destruct (closing client) eqn:Hc; simpl; [done|].
  destruct (shutdown client) eqn:Hs; simpl; [done|].
  intros [= <- <- <-]. simpl. by rewrite ?Hs.
Qed.

Lemma registerCall_err call client calls seq0 err client' calls' :
  registerCall call client calls = ((seq0, Some err), client', calls') →
  client' = client ∧ calls' = calls.
Proof.
  unfold registerCall. destruct (closing client || shutdown client); [|done].
  by intros [= <- <- <- <-].
Qed.

Lemma held_by_receiver_after_body berr c :
  held_by_receiver (after_body berr) c = 0%nat.
Proof. by destruct berr. Qed.

(** The steps of a client, case by case. *)
Ltac cstep_cases Hstep :=
  inversion Hstep as
    [st0 call sm Hs Hfresh
    |st0 call seq0 client' calls' Hs Hreg
    |st0 call seq0 err client' calls' Hs Hreg
    |st0 call err Hs
    |st0 call seq0 Hs
    |st0 call seq0 err Hs
    |st0 seq0 err Hs
    |st0 call err Hs
    |st0 err Hr
    |st0 hd berr Hr
    |st0 call hd berr Hr
    |st0 err Hr Hs
    |st0]; subst;
  cbn [cs_client cs_calls cs_signalled cs_registered cs_lost cs_sender
       cs_receiver] in *.

Lemma inv_sum st st' :
  client_inv st → cstep st st' →
  ∀ c, (times c (cs_signalled st') + owed st' c + times c (cs_lost st'))%nat
       = created st' c.
Proof.
  intros (H1 & H2 & H3 & H4 & H5 & H6) Hstep c. specialize (H1 c).
  unfold owed, created, in_pending in *.
  cstep_cases Hstep; rewrite ?created_alter_calls, ?created_foldr_alter.
  - rewrite Hs in H1. simpl in *.
    destruct (decide (call = c)) as [->|Hne].
    + rewrite lookup_insert_eq. rewrite Hfresh in H1. lia.
    + rewrite lookup_insert_ne by done. lia.
  - destruct (registerCall_ok _ _ _ _ _ _ Hreg)
      as (Hsd & -> & Hsd' & Hp' & _ & ->).
    rewrite created_alter_calls. rewrite Hs, Hsd in H1. rewrite Hsd', Hp'.
    rewrite times_pending_insert. simpl in *.
    destruct (pending (cs_client st) !! seq (cs_client st)) as [old|] eqn:Hold.
    + rewrite (times_pending_delete _ _ _ _ Hold) in H1.
      rewrite times_cons. lia.
    + rewrite (times_pending_delete_None _ _ _ Hold). lia.
  - destruct (registerCall_err _ _ _ _ _ _ _ Hreg) as [-> ->].
    rewrite Hs in H1. simpl in *. lia.
  - rewrite Hs in H1. rewrite times_snoc. simpl in *. lia.
  - rewrite Hs in H1. simpl in *. lia.
  - rewrite Hs in H1. simpl in *. lia.
  - destruct (shutdown (cs_client st)) eqn:Hsd.
    { specialize (H4 eq_refl). by rewrite Hs in H4. }
    rewrite Hs in H1. simpl in *. rewrite Hsd.
    destruct (pending (cs_client st) !! seq0) as [c0|] eqn:Hc0.
    + rewrite (times_pending_delete _ _ _ _ Hc0) in H1. simpl. lia.
    + rewrite (times_pending_delete_None _ _ _ Hc0). simpl. lia.
  - rewrite Hs in H1. rewrite times_snoc. simpl in *. lia.
  - rewrite Hr in H1. simpl in *. lia.
  - destruct (shutdown (cs_client st)) eqn:Hsd.
    { destruct H3 as [_ H3]. specialize (H3 eq_refl). congruence. }
    rewrite Hr in H1. simpl in *. rewrite Hsd.
    destruct (pending (cs_client st) !! Seq hd) as [c0|] eqn:Hc0.
    + rewrite (times_pending_delete _ _ _ _ Hc0) in H1. simpl. lia.
    + rewrite (times_pending_delete_None _ _ _ Hc0).
      rewrite held_by_receiver_after_body. lia.
  - rewrite Hr in H1. rewrite times_snoc, held_by_receiver_after_body.
    simpl in *. lia.
  - destruct (shutdown (cs_client st)) eqn:Hsd.
    { destruct H3 as [_ H3]. specialize (H3 eq_refl). congruence. }
    rewrite Hr, Hs in H1. simpl in *.
    rewrite times_app, created_foldr_alter. lia.
  - unfold Close. destruct (closing (cs_client st)); simpl; lia.
Qed.

Lemma after_body_not_stopped berr : after_body berr ≠ RStopped.
Proof. by destruct berr. Qed.

Lemma inv_registered st st' :
  client_inv st → cstep st st' →
  ∀ c, c ∈ cs_registered st' → created st' c = 1%nat.
Proof.
  intros (H1 & H2 & H3 & H4 & H5 & H6) Hstep c.
  unfold created in *.
  cstep_cases Hstep; rewrite ?created_alter_calls, ?created_foldr_alter;
    try (by apply H2).
  - intros Hc. destruct (decide (call = c)) as [->|Hne].
    + by rewrite lookup_insert_eq.
    + rewrite lookup_insert_ne by done. by apply H2.
  - destruct (registerCall_ok _ _ _ _ _ _ Hreg) as (_ & _ & _ & _ & _ & ->).
    rewrite created_alter_calls.
    intros [Heq|Hc]%elem_of_cons; [subst c|by apply H2].
    specialize (H1 call). unfold owed in H1. rewrite Hs in H1. simpl in H1.
    rewrite decide_True in H1 by done.
    destruct (cs_calls st !! call); [done|lia].
  - destruct (registerCall_err _ _ _ _ _ _ _ Hreg) as [-> ->]. apply H2.
  - simpl. rewrite created_foldr_alter. apply H2.
Qed.

Lemma inv_stopped st st' :
  client_inv st → cstep st st' →
  cs_receiver st' = RStopped ↔ shutdown (cs_client st') = true.
Proof.
  intros (H1 & H2 & H3 & H4 & H5 & H6) Hstep.
  cstep_cases Hstep; try done.
  - destruct (registerCall_ok _ _ _ _ _ _ Hreg) as (Hsd & _ & Hsd' & _).
    by rewrite Hsd', <- Hsd.
  - by destruct (registerCall_err _ _ _ _ _ _ _ Hreg) as [-> ->].
  - rewrite <- H3, Hr. done.
  - simpl. rewrite <- H3, Hr. split; [|done].
    destruct (pending (cs_client st) !! Seq hd); [done|].
    intros []%after_body_not_stopped.
  - rewrite <- H3, Hr. split; [|done]. intros []%after_body_not_stopped.
  - unfold Close. by destruct (closing (cs_client st)).
Qed.

Lemma inv_sender st st' :
  client_inv st → cstep st st' →
  shutdown (cs_client st') = true →
  match cs_sender st' with
  | SIdle | SLocked _ | SRegFailed _ _ => True
  | _ => False
  end.
Proof.
  intros (H1 & H2 & H3 & H4 & H5 & H6) Hstep.
  cstep_cases Hstep; try done.
  - destruct (registerCall_ok _ _ _ _ _ _ Hreg) as (_ & _ & Hsd' & _).
    by rewrite Hsd'.
  - simpl. intros Hsd. specialize (H4 Hsd). by rewrite Hs in H4.
  - simpl. intros Hsd. specialize (H4 Hsd). by rewrite Hs in H4.
  - unfold Close. by destruct (closing (cs_client st)).
Qed.

Lemma inv_unregistered st st' :
  client_inv st → cstep st st' →
  match cs_sender st' with
  | SLocked c | SRegFailed c _ => c ∉ cs_registered st'
  | _ => True
  end.
Proof.
  intros (H1 & H2 & H3 & H4 & H5 & H6) Hstep.
  cstep_cases Hstep; try done.
  - intros Hin. specialize (H2 _ Hin). unfold created in H2.
    by rewrite Hfresh in H2.
  - by rewrite Hs in H5.
  - simpl. by destruct (pending (cs_client st) !! seq0).
Qed.

Lemma inv_nowrap st st' :
  client_inv st → cstep st st' →
  Z.of_nat (length (cs_registered st')) < 2 ^ 64 - 1 →
  seq (cs_client st') = 1 + Z.of_nat (length (cs_registered st')) ∧
  (∀ k, is_Some (pending (cs_client st') !! k) →
        1 ≤ k < seq (cs_client st')) ∧
  cs_lost st' = [].
Proof.
  intros (H1 & H2 & H3 & H4 & H5 & H6) Hstep.
  cstep_cases Hstep; try done.
  - destruct (registerCall_ok _ _ _ _ _ _ Hreg)
      as (_ & -> & _ & Hp' & Hseq' & _).
    simpl length. intros Hlen.
    destruct H6 as (Hseq & Hkeys & Hlost); [lia|].
    rewrite Hseq', Hp'. unfold uint64_wrap.
    rewrite Z.mod_small by lia. split; [lia|]. split.
    + intros k Hk. destruct (decide (seq (cs_client st) = k)) as [<-|Hne];
        [lia|]. rewrite lookup_insert_ne in Hk by done.
      specialize (Hkeys k Hk). lia.
    + destruct (pending (cs_client st) !! seq (cs_client st)) eqn:Hold;
        [|done].
      specialize (Hkeys _ (mk_is_Some _ _ Hold)). lia.
  - by destruct (registerCall_err _ _ _ _ _ _ _ Hreg) as [-> ->].
  - simpl. intros Hlen. destruct (H6 Hlen) as (Hseq & Hkeys & Hlost).
    split; [done|]. split; [|done]. intros k [x Hk].
    apply lookup_delete_Some in Hk as [_ Hk]. apply Hkeys. by eexists.
  - simpl. intros Hlen. destruct (H6 Hlen) as (Hseq & Hkeys & Hlost).
    split; [done|]. split; [|done]. intros k [x Hk].
    apply lookup_delete_Some in Hk as [_ Hk]. apply Hkeys. by eexists.
  - unfold Close. by destruct (closing (cs_client st)).
Qed.

Lemma cinit_inv opt : client_inv (cinit opt).
Proof.
  split; [done|]. split; [by intros c Hc%elem_of_nil|].
  split; [done|]. split; [done|]. split; [done|].
  intros _. split; [done|]. split; [|done].
  intros k [x Hk]. simpl in Hk. by rewrite lookup_empty in Hk.
Qed.

(** Every step keeps [client_inv]. *)
Lemma cstep_inv st st' : client_inv st → cstep st st' → client_inv st'.
Proof.
  intros Hinv Hstep.
  split; [by apply (inv_sum st)|].
  split; [by apply (inv_registered st)|].
  split; [by apply (inv_stopped st)|].
  split; [by apply (inv_sender st)|].
  split; [by apply (inv_unregistered st)|].
  by apply (inv_nowrap st).
Qed.

Lemma reachable_inv opt st : rtc cstep (cinit opt) st → client_inv st.
Proof.
  revert st. apply rtc_ind_r; [apply cinit_inv|].
  intros st st' _ Hstep IH. by apply (cstep_inv st).
Qed.

End client_invariant.

Section client_claim.
Import go codec gpmd.

(** C4: in every state a client can reach, a call that exists has exactly
    one of: a signal received, a place that owes it one ([pending] before
    the shutdown, the sender or the receiver that hold it), an entry of
    [pending] that a later registration overwrote; so no call is ever
    signalled twice. As long as fewer than 2^64 - 1 calls were registered on
    the connection (the [uint64] counter [seq] has not wrapped) no entry was
    overwritten, and once [terminateCalls] has run every registered call has
    received exactly one signal. *)
Theorem every_call_is_signalled_exactly_once
    (opt : positive) (st : cstate) :
  rtc cstep (cinit opt) st →
  (∀ c, (times c (cs_signalled st) + owed st c + times c (cs_lost st))%nat
        = created st c) ∧
  (∀ c, (times c (cs_signalled st) ≤ 1)%nat) ∧
  (Z.of_nat (length (cs_registered st)) < 2 ^ 64 - 1 →
   cs_lost st = [] ∧
   (cs_receiver st = RStopped →
    ∀ c, c ∈ cs_registered st → times c (cs_signalled st) = 1%nat)).
Proof.
  intros Hrun.
  destruct (reachable_inv opt st Hrun) as (H1 & H2 & H3 & H4 & H5 & H6).
  split; [exact H1|]. split.
  { intros c. specialize (H1 c). unfold created in H1.
    destruct (cs_calls st !! c); lia. }
  intros Hlen. destruct (H6 Hlen) as (_ & _ & Hlost). split; [exact Hlost|].
  intros Hr c Hc. specialize (H1 c). rewrite (H2 c Hc), Hlost in H1.
  rewrite times_nil in H1. unfold owed, in_pending in H1.
  apply H3 in Hr as Hsd. rewrite Hsd, Hr in H1. specialize (H4 Hsd).
  destruct (cs_sender st) as [|c'|c' e| | |]; simpl in H1; try done; try lia.
  - destruct (decide (c' = c)) as [->|_]; [done|lia].
  - destruct (decide (c' = c)) as [->|_]; [done|lia].
Qed.

End client_claim.

Section client_witness.
Import go codec gpmd.

(** The projections and methods that move a client's state, unfolded to
    keep the states of a run small. *)
Ltac cstate_norm :=
  cbn [cs_client cs_calls cs_signalled cs_registered cs_lost cs_sender
       cs_receiver cinit NewClientCodec registerCall removeCall
       terminateCalls Close set_header after_body
       copt header seq pending closing shutdown orb fst snd Seq].

Ltac pending_norm :=
  repeat first
    [ rewrite lookup_insert_eq
    | rewrite lookup_insert_ne by done
    | rewrite lookup_delete_eq
    | rewrite lookup_delete_ne by done
    | rewrite lookup_empty ].

Ltac run_step step := eapply rtc_l; [step|]; cstate_norm; pending_norm.

(** Witness of C4: call 0 is sent and answered; the write of call 1
    fails, and [send] evicts it; call 2 is sent and still pending when the
    connection fails. Each of the three is signalled once, each on its own
    path. *)
Lemma three_calls_witness :
  ∃ st, rtc cstep (cinit 1%positive) st ∧ cs_receiver st = RStopped ∧
        cs_registered st = [2; 1; 0]%nat ∧
        ∀ c, c ∈ cs_registered st → times c (cs_signalled st) = 1%nat.
Proof.
  assert (Hrun : ∃ st, rtc cstep (cinit 1%positive) st ∧
                       cs_receiver st = RStopped ∧
                       cs_registered st = [2; 1; 0]%nat).
  { eexists. split.
    - run_step ltac:(apply (step_go _ 0%nat "Foo.Sum"); reflexivity).
      run_step ltac:(eapply step_register_ok; reflexivity).
      change (uint64_wrap (1 + 1)) with 2.
      run_step ltac:(eapply step_write_ok; reflexivity).
      run_step ltac:(apply (step_go _ 1%nat "Foo.Sum"); reflexivity).
      run_step ltac:(eapply step_register_ok; reflexivity).
      change (uint64_wrap (2 + 1)) with 3.
      run_step ltac:(apply (step_write_err _ 1%nat 2 "broken pipe");
                     reflexivity).
      run_step ltac:(eapply step_evict; reflexivity).
      run_step ltac:(eapply step_evict_done; reflexivity).
      run_step ltac:(apply (step_go _ 2%nat "Foo.Sum"); reflexivity).
      run_step ltac:(eapply step_register_ok; reflexivity).
      change (uint64_wrap (3 + 1)) with 4.
      run_step ltac:(eapply step_write_ok; reflexivity).
      run_step ltac:(apply (step_header _ (mkHeader "Foo.Sum" 1 "") None);
                     reflexivity).
      run_step ltac:(apply (step_deliver _ 0%nat (mkHeader "Foo.Sum" 1 "") None);
                     reflexivity).
      run_step ltac:(apply (step_header_err _ "EOF"); reflexivity).
      run_step ltac:(apply (step_terminate _ "EOF"); reflexivity).
      apply rtc_refl.
    - split; reflexivity. }
  destruct Hrun as (st & Hrun & Hr & Hreg). exists st.
  split; [exact Hrun|]. split; [exact Hr|]. split; [exact Hreg|].
  refine (proj2 (proj2 (proj2 (every_call_is_signalled_exactly_once
                                 1%positive st Hrun)) _) Hr).
  rewrite Hreg. simpl. lia.
Defined.

End client_witness.

(** * Further properties *)

(** ** The registry: purging and heartbeats *)

Section registry_more.
Import registry.
Implicit Types (r : Registry) (clock : string → Z).

Lemma Registry_eq r r' :
  timeout r = timeout r' → servers r = servers r' → r = r'.
Proof. destruct r, r'; simpl; by intros -> ->. Qed.

Lemma aliveServers_nothing_expired clock r :
  (∀ a s, servers r !! a = Some s → alive (timeout r) s (clock a) = true) →
  (aliveServers clock r).2 = r ∧
  ∀ a, a ∈ (aliveServers clock r).1 ↔ is_Some (servers r !! a).
Proof.
  intros Hal. split.
  - apply Registry_eq; [done|]. apply map_eq. intros a.
    rewrite aliveServers_purged.
    destruct (servers r !! a) as [s|] eqn:Hs; [|done]. by rewrite (Hal a s Hs).
  - intros a. destruct (aliveServers_list clock r) as (_ & _ & Hin).
    rewrite Hin. split; [intros (s & Hs & _); by eexists|].
    intros [s Hs]. exists s. split; [done|]. by apply Hal.
Qed.

(** A registry in which no entry has expired is left as it is, and all its
    addresses are returned. *)
Theorem aliveServers_keeps_a_registry_without_expired_entries clock r :
  (∀ a s, servers r !! a = Some s → alive (timeout r) s (clock a) = true) →
  (aliveServers clock r).2 = r ∧
  ∀ a, a ∈ (aliveServers clock r).1 ↔ is_Some (servers r !! a).
Proof. apply aliveServers_nothing_expired. Qed.

(** With a zero timeout nothing ever expires: the set of addresses and the
    registry stay as they are, whatever the clock reads. *)
Theorem aliveServers_with_zero_timeout_never_purges clock r :
  timeout r = 0 →
  (aliveServers clock r).2 = r ∧
  ∀ a, a ∈ (aliveServers clock r).1 ↔ is_Some (servers r !! a).
Proof.
  intros Hz. apply aliveServers_nothing_expired.
  intros a s _. unfold alive. by rewrite Hz.
Qed.

Lemma zero_timeout_witness :
  timeout (putServer 5 "A" (New 0)) = 0 ∧
  (aliveServers (λ _, 1000000000000000) (putServer 5 "A" (New 0))).2
    = putServer 5 "A" (New 0).
Proof.
  split; [reflexivity|].
  apply (aliveServers_with_zero_timeout_never_purges
           (λ _, 1000000000000000) (putServer 5 "A" (New 0))).
  reflexivity.
Defined.

Lemma no_expired_witness :
  (aliveServers (λ _, 10) (putServer 5 "A" DefaultRegistry)).2
    = putServer 5 "A" DefaultRegistry.
Proof.
  apply (aliveServers_keeps_a_registry_without_expired_entries
           (λ _, 10) (putServer 5 "A" DefaultRegistry)).
  intros a s Hs. destruct (decide (a = "A")) as [->|Hne].
  - destruct (putServer_lookup 5 "A" DefaultRegistry) as (s' & Hs' & Hst).
    rewrite Hs in Hs'. injection Hs' as <-. apply alive_spec. right.
    rewrite Hst. reflexivity.
  - rewrite putServer_other in Hs by done.
    change (servers DefaultRegistry) with (∅ : gmap string ServerItem) in Hs.
    by rewrite lookup_empty in Hs.
Defined.

(** Purging is idempotent: at the same clock readings, a second
    [aliveServers] returns the same addresses and changes nothing. *)
Theorem aliveServers_is_idempotent clock r :
  aliveServers clock (aliveServers clock r).2 = aliveServers clock r.
Proof.
  assert (Hal : ∀ a s, servers (aliveServers clock r).2 !! a = Some s →
            alive (timeout (aliveServers clock r).2) s (clock a) = true).
  { intros a s. rewrite aliveServers_purged, aliveServers_timeout.
    destruct (servers r !! a) as [s'|]; [|done].
    destruct (alive (timeout r) s' (clock a)) eqn:Ha; [|done]. congruence. }
  destruct (aliveServers_nothing_expired clock _ Hal) as [Hreg Hin].
  apply injective_projections; [|done].
  destruct (aliveServers_list clock r) as (Hs & Hnd & Hin0).
  destruct (aliveServers_list clock (aliveServers clock r).2)
    as (Hs' & Hnd' & _).
  apply (Sorted_unique strings.le); [done|done|].
  apply NoDup_Permutation; [done|done|].
  intros a. rewrite Hin, Hin0, aliveServers_purged.
  destruct (servers r !! a) as [s|]; split.
  - intros [s' Hs'']. exists s. split; [done|].
    by destruct (alive (timeout r) s (clock a)).
  - intros (s' & [= <-] & Ha). rewrite Ha. by eexists.
  - by intros [s' ?].
  - by intros (s' & ? & _).
Qed.



(** With the default interval and the default timeout of the registry, a
    server stays listed from one heartbeat until the next one is due. *)
Theorem default_heartbeat_keeps_the_server_listed clock r t addr :
  timeout r = defaultTimeout →
  t ≤ clock addr ≤ t + Heartbeat_interval 0 →
  addr ∈ (aliveServers clock (putServer t addr r)).1.
Proof.
  intros Ht Hnow.
  destruct (aliveServers_list clock (putServer t addr r)) as (_ & _ & Hin).
  apply Hin. destruct (putServer_lookup t addr r) as (s & Hs & Hstart).
  exists s. split; [done|]. apply alive_spec. right.
  rewrite putServer_timeout, Ht, Hstart.
  unfold Heartbeat_interval, defaultTimeout, Minute in *. simpl in Hnow. lia.
Qed.

Lemma default_heartbeat_witness :
  "A" ∈ (aliveServers (λ _, 240000000000)
           (putServer 0 "A" DefaultRegistry)).1.
Proof.
  apply (default_heartbeat_keeps_the_server_listed
           (λ _, 240000000000) DefaultRegistry 0 "A").
  - reflexivity.
  - split; vm_compute; discriminate.
Defined.

End registry_more.

(** ** Discovery: selection *)

Section discovery_more.
Import go xclient.
Implicit Types (d : MultiServerDiscovery).

(** [Get] never panics while the cursor is not negative, whatever list
    [Update] has put in place: it fails exactly on an empty list or an
    unknown mode, leaving the discovery as it is, and otherwise returns a
    server of the list; only the round-robin mode moves the cursor, and the
    cursor stays in range. *)
Theorem Get_returns_a_server_of_the_list_or_fails_cleanly rnd mode d :
  0 ≤ index d < MaxInt →
  Z.of_nat (length (servers d)) ≤ MaxInt →
  (servers d ≠ [] → 0 ≤ rnd < Z.of_nat (length (servers d))) →
  ∃ s e d', Get rnd mode d = Ret ((s, e), d') ∧
    servers d' = servers d ∧ 0 ≤ index d' < MaxInt ∧
    (mode ≠ RoundRobinSelect → d' = d) ∧
    match e with
    | None => s ∈ servers d ∧ (mode = RandomSelect ∨ mode = RoundRobinSelect)
    | Some _ =>
        s = "" ∧ d' = d ∧
        (servers d = [] ∨ (mode ≠ RandomSelect ∧ mode ≠ RoundRobinSelect))
    end.
Proof.
  intros Hidx Hlen Hrnd.
  destruct (decide (servers d = [])) as [Hnil|Hne].
  { exists "", (Some "rpc discovery: no available servers"), d.
    unfold Get. rewrite Hnil. simpl.
    repeat split; try done; try lia; try (by left). }
  assert (Hn : 0 < Z.of_nat (length (servers d))).
  { destruct (servers d); [done|simpl; lia]. }
  destruct (decide (mode = RandomSelect)) as [->|Hnr].
  { specialize (Hrnd Hne).
    destruct (lookup_lt_is_Some_2 (servers d) (Z.to_nat rnd)) as [s Hs]; [lia|].
    exists s, None, d. unfold Get, slice_index.
    destruct (Z.eqb_spec (Z.of_nat (length (servers d))) 0); [lia|].
    change (RandomSelect =? RandomSelect) with true. cbv iota.
    destruct (Z.ltb_spec rnd 0); [lia|]. rewrite Hs.
    repeat split; try done; try lia; try (by left);
      try (apply list_elem_of_lookup; by eauto). }
  destruct (decide (mode = RoundRobinSelect)) as [->|Hnrr].
  { destruct (Get_round_robin rnd d Hne Hidx) as (s & Hs & HG).
    eexists s, None, _. split; [exact HG|]. simpl.
    pose proof (Z.mod_pos_bound (index d + 1) _ Hn).
    repeat split; try done; try lia; try (by right);
      try (apply list_elem_of_lookup; by eauto). }
  exists "", (Some "rpc discovery: not supported select mode"), d.
  unfold Get.
  destruct (Z.eqb_spec (Z.of_nat (length (servers d))) 0); [lia|].
  destruct (Z.eqb_spec mode RandomSelect); [done|].
  destruct (Z.eqb_spec mode RoundRobinSelect); [done|].
  repeat split; try done; try lia; try (by right).
Qed.

(** After an [Update] to a shorter list, the cursor left by earlier calls
    still selects a server of the new list. *)
Lemma Get_after_Update_witness :
  ∃ s e d', Get 0 RoundRobinSelect
              (Update ["a"; "b"] (mkMultiServerDiscovery ["x"; "y"; "z"] 2))
            = Ret ((s, e), d') ∧
            servers d' = ["a"; "b"] ∧ 0 ≤ index d' < MaxInt.
Proof.
  destruct (Get_returns_a_server_of_the_list_or_fails_cleanly 0
              RoundRobinSelect
              (Update ["a"; "b"] (mkMultiServerDiscovery ["x"; "y"; "z"] 2)))
    as (s & e & d' & HG & Hs & Hi & _).
  - split; vm_compute; [discriminate|reflexivity].
  - vm_compute. discriminate.
  - intros _. split; vm_compute; [discriminate|reflexivity].
  - exists s, e, d'. split; [exact HG|]. split; [exact Hs|exact Hi].
Defined.

End discovery_more.

(** ** Discovery through the registry *)

Section split_and_trim.








End split_and_trim.


Section refresh.
Import go xclient.







End refresh.

Section registry_discovery.
Import go xclient.
Implicit Types (d : GpmdRegistryDiscovery).

Lemma Gpmd_Refresh_fresh now now' fetched d :
  now < lastUpdate d + timeout d →
  Gpmd_Refresh now now' fetched d = (None, d).
Proof.
  intros Hnow. unfold Gpmd_Refresh, registry.Time_After, registry.Time_Add.
  by destruct (Z.ltb_spec now (lastUpdate d + timeout d)); [|lia].
Qed.

Lemma Gpmd_Refresh_stale now now' fetched d :
  lastUpdate d + timeout d ≤ now →
  Gpmd_Refresh now now' fetched d =
  match fetched with
  | inr err => (Some err, d)
  | inl hdrs =>
      (None,
       {| embedded :=
            {| servers := Refresh_servers
                            (registry.Header_Get hdrs "X-GPMD-SERVERS");
               index := index (embedded d) |};
          registry := registry d; timeout := timeout d; lastUpdate := now' |})
  end.
Proof.
  intros Hnow. unfold Gpmd_Refresh, registry.Time_After, registry.Time_Add.
  by destruct (Z.ltb_spec now (lastUpdate d + timeout d)); [lia|].
Qed.

(** Within the time to live of the last update the registry is not asked:
    whatever a fetch would return, [Refresh] changes nothing and [GetAll]
    serves the list at hand; in particular the list given to [Update] is
    served until its time to live is over. *)
Theorem Gpmd_Refresh_within_the_TTL_does_not_fetch now now' fetched d :
  (now < lastUpdate d + timeout d →
   Gpmd_Refresh now now' fetched d = (None, d) ∧
   Gpmd_GetAll now now' fetched d = ((servers (embedded d), None), d)) ∧
  (∀ t l, now < t + timeout d →
     Gpmd_GetAll now now' fetched (Gpmd_Update t l d)
       = ((l, None), Gpmd_Update t l d)).
Proof.
  split.
  - intros Hnow. split; [by apply Gpmd_Refresh_fresh|].
    unfold Gpmd_GetAll. by rewrite Gpmd_Refresh_fresh.
  - intros t l Hnow. unfold Gpmd_GetAll.
    by rewrite Gpmd_Refresh_fresh.
Qed.

Lemma Gpmd_Update_witness :
  Gpmd_GetAll 9 9 (inr "connection refused")
    (Gpmd_Update 0 ["tcp@a:1"] (NewGpmdRegistryDiscovery "http://r" 10 7))
  = ((["tcp@a:1"], None),
     Gpmd_Update 0 ["tcp@a:1"] (NewGpmdRegistryDiscovery "http://r" 10 7)).
Proof.
  apply (proj2 (Gpmd_Refresh_within_the_TTL_does_not_fetch 9 9
                  (inr "connection refused")
                  (NewGpmdRegistryDiscovery "http://r" 10 7))).
  reflexivity.
Defined.

(** When the time to live is over and the fetch fails, [Refresh], [Get] and
    [GetAll] return the error of the fetch and leave the discovery as it
    was: no server is selected and the cursor does not move, and since the
    time of the last update stays, the next call fetches again. *)
Theorem Gpmd_failed_fetch_is_reported_and_changes_nothing
    now now' err rnd mode d :
  lastUpdate d + timeout d ≤ now →
  Gpmd_Refresh now now' (inr err) d = (Some err, d) ∧
  Gpmd_Get now now' (inr err) rnd mode d = Ret (("", Some err), d) ∧
  Gpmd_GetAll now now' (inr err) d = (([], Some err), d).
Proof.
  intros Hnow. unfold Gpmd_Get, Gpmd_GetAll.
  by rewrite (Gpmd_Refresh_stale now now' (inr err) d Hnow).
Qed.

Lemma Gpmd_failed_fetch_witness :
  Gpmd_Get 0 0 (inr "connection refused") 0 RandomSelect
    (NewGpmdRegistryDiscovery "http://r" 0 7)
  = Ret (("", Some "connection refused"),
         NewGpmdRegistryDiscovery "http://r" 0 7).
Proof.
  apply (Gpmd_failed_fetch_is_reported_and_changes_nothing 0 0
           "connection refused" 0 RandomSelect
           (NewGpmdRegistryDiscovery "http://r" 0 7)).
  vm_compute. discriminate.
Defined.



End registry_discovery.

(** ** The server: registration *)

Section registration.
Import go codec reflect gpmd.

Lemma Type_eqb_eq : ∀ t u, Type_eqb t u = true ↔ t = u.
Proof.
  fix IH 1. intros [n p k e] [n' p' k' e']. simpl.
  rewrite !andb_true_iff, !String.eqb_eq, bool_decide_eq_true.
  destruct e as [a|], e' as [b|].
  - rewrite IH. split; [intros [[[-> ->] ->] ->]; done|].
    intros [= -> -> -> ->]. done.
  - split; [intros [_ ?]; done|done].
  - split; [intros [_ ?]; done|done].
  - split; [intros [[[-> ->] ->] _]; done|]. intros [= -> -> ->]. done.
Qed.

(** One round of [registerMethod] writes under the name of its method
    only. *)
Lemma registerMethod_iter_other acc (m : Method) nm :
  MName m ≠ nm → registerMethod_iter acc m !! nm = acc !! nm.
Proof.
  intros Hne. unfold registerMethod_iter.
  destruct (In (MType m)) as [|? [|? [|? [|? ?]]]]; try done.
  destruct (Out (MType m)) as [|? [|? ?]]; try done.
  destruct (negb _); [done|]. destruct (_ || _); [done|].
  by rewrite lookup_insert_ne.
Qed.

(** What one round writes, it writes for a method that passed the
    tests. *)
Lemma registerMethod_iter_sound acc (m : Method) mt :
  registerMethod_iter acc m !! MName m = Some mt →
  acc !! MName m = Some mt ∨
  ∃ recv, In (MType m) = [recv; ArgType mt; ReplyType mt] ∧
          Out (MType m) = [errorType] ∧
          isExportedOrBuiltinType (ArgType mt) = true ∧
          isExportedOrBuiltinType (ReplyType mt) = true ∧
          method mt = m ∧ numCalls mt = 0.
Proof.
  unfold registerMethod_iter.
  destruct (In (MType m)) as [|recv [|a [|r [|? ?]]]]; try (by left).
  destruct (Out (MType m)) as [|o [|? ?]]; try (by left).
  destruct (Type_eqb o errorType) eqn:Ho; simpl; [|by left].
  apply Type_eqb_eq in Ho as ->.
  destruct (isExportedOrBuiltinType a) eqn:Ha; simpl; [|by left].
  destruct (isExportedOrBuiltinType r) eqn:Hr; simpl; [|by left].
  rewrite lookup_insert_eq. intros [= <-]. right. exists recv. by simpl.
Qed.


Lemma registerMethod_fold_sound (methods : list Method) nm mt : ∀ acc,
  fold_left registerMethod_iter methods acc !! nm = Some mt →
  acc !! nm = Some mt ∨
  ∃ m recv, m ∈ methods ∧ MName m = nm ∧
            In (MType m) = [recv; ArgType mt; ReplyType mt] ∧
            Out (MType m) = [errorType] ∧
            isExportedOrBuiltinType (ArgType mt) = true ∧
            isExportedOrBuiltinType (ReplyType mt) = true ∧
            method mt = m ∧ numCalls mt = 0.
Proof.
  induction methods as [|m methods IH]; intros acc Hf; simpl in Hf;
    [by left|].
  destruct (IH _ Hf) as [Hacc|(m' & recv & Hin & Hrest)].
  - destruct (decide (MName m = nm)) as [<-|Hne].
    + destruct (registerMethod_iter_sound _ _ _ Hacc) as [?|(recv & Hrest)];
        [by left|].
      right. exists m, recv. split; [by left|]. by split.
    + rewrite registerMethod_iter_other in Hacc by done. by left.
  - right. exists m', recv. split; [by right|done].
Qed.



End registration.

Section register.
Import go codec reflect gpmd.






End register.

(** ** The server: one response per request *)

Section one_response.
Import go codec reflect gpmd.

Variable fmt : Z → string.

(** Where the two goroutines of [handleRequest] can stand together, and
    what has been written by then. *)
Lemma hstep_phases req timeout cc st :
  rtc (hstep fmt req timeout) (hinit req cc) st →
  ∃ extra,
    written (hs_cc st) = written cc ++ extra ∧
    Seq (hs_h st) = Seq (h req) ∧
    ServiceMethod (hs_h st) = ServiceMethod (h req) ∧
    (∀ resp, resp ∈ extra →
       Seq resp.1 = Seq (h req) ∧
       ServiceMethod resp.1 = ServiceMethod (h req) ∧
       resp.2 = invalidRequest) ∧
    ((hs_handler st ≠ HRecvSent ∧ hs_handler st ≠ HReturned ∧
      (hs_worker st = WCall ∨ ∃ e, hs_worker st = WCalled e) ∧ extra = []) ∨
     (hs_handler st = HRecvSent ∧
      ((∃ e, hs_worker st = WCheck e) ∨ hs_worker st = WReturned) ∧
      extra = []) ∨
     (hs_handler st = HRecvSent ∧ hs_worker st = WSent ∧
      length extra = 1%nat) ∨
     (hs_handler st = HReturned ∧
      (hs_worker st = WCall ∨ (∃ e, hs_worker st = WCalled e) ∨
       hs_worker st = WReturned) ∧
      length extra = 1%nat)).
Proof.
  revert st. apply rtc_ind_r.
  { exists []. rewrite app_nil_r. simpl.
    split; [done|]. split; [done|]. split; [done|].
    split; [by intros resp ?%elem_of_nil|].
    left. split; [done|]. split; [done|]. split; [by left|done]. }
  intros st st' _ Hstep (extra & Hw & Hseq & Hsm & Hresp & Hphase).
  inversion Hstep as
    [st0 s0 m0 a0 r0 Hwk Hs0 Hm0 Ha0 Hr0 | st0 Hh | st0 err Hwk Hh
    | st0 e Hwk | st0 Hwk | st0 Hwk Hh | st0 Hh]; subst;
    cbn [hs_h hs_cc hs_worker hs_handler].
  - exists extra.
    split; [done|]. split; [done|]. split; [done|]. split; [exact Hresp|].
    destruct Hphase as [(?&?&?&?)|[(?&[[? ?]|?]&?)|[(?&?&?)|(?&?&?)]]];
      try congruence.
    + left. split; [done|]. split; [done|]. split; [|done].
      right. by eexists.
    + right. right. right. split; [done|]. split; [|done].
      right. left. by eexists.
  - exists extra.
    split; [done|]. split; [done|]. split; [done|]. split; [exact Hresp|].
    destruct Hphase as [(?&?&?&?)|[(?&?)|[(?&?)|(?&?)]]]; try congruence.
    left. split; [by destruct (timeout =? 0)|].
    split; [by destruct (timeout =? 0)|]. by split.
  - exists extra.
    split; [done|]. split; [done|]. split; [done|]. split; [exact Hresp|].
    destruct Hphase as [(?&?&?&?)|[(?&?)|[(?&?)|(?&?)]]];
      try (destruct Hh; congruence).
    right. left. split; [done|]. split; [|done]. left. by eexists.
  - exists (extra ++ [(set_Error e (hs_h st), invalidRequest)]).
    unfold sendResponse, Write. simpl. rewrite Hw, app_assoc.
    split; [done|]. split; [done|]. split; [done|]. split.
    { intros resp [?|Hin%list_elem_of_singleton]%elem_of_app;
        [by apply Hresp|by subst resp]. }
    destruct Hphase as [(?&?&[?|[? ?]]&?)|[(?&[[? ?]|?]&?)|[(?&?&?)|(?&[?|[[? ?]|?]]&?)]]];
        try congruence.
    subst extra. right. right. left. by split.
  - exists extra.
    split; [done|]. split; [done|]. split; [done|]. split; [exact Hresp|].
    destruct Hphase as [(?&?&[?|[? ?]]&?)|[(?&[[? ?]|?]&?)|[(?&?&?)|(?&[?|[[? ?]|?]]&?)]]];
      try congruence.
    right. left. split; [done|]. split; [by right|done].
  - exists extra.
    split; [done|]. split; [done|]. split; [done|]. split; [exact Hresp|].
    destruct Hphase as [(?&?&[?|[? ?]]&?)|[(?&[[? ?]|?]&?)|[(?&?&?)|(?&[?|[[? ?]|?]]&?)]]];
      try congruence.
    right. right. right. split; [done|]. split; [|done]. right. by right.
  - exists (extra ++ [(set_Error (handle_timeout_error fmt timeout) (hs_h st),
                       invalidRequest)]).
    unfold sendResponse, Write. simpl. rewrite Hw, app_assoc.
    split; [done|]. split; [done|]. split; [done|]. split.
    { intros resp [?|Hin%list_elem_of_singleton]%elem_of_app;
        [by apply Hresp|by subst resp]. }
    destruct Hphase as [(?&?&Hwk&?)|[(?&?)|[(?&?)|(?&?)]]];
        try congruence.
    subst extra. right. right. right. split; [done|]. split; [|done].
    destruct Hwk as [?|?]; [by left|right; by left].
Qed.

(** [handleRequest] writes at most one response for a request, in every
    interleaving of its goroutines and of the timer, and exactly one when
    it returns; the response carries the sequence number and the key of the
    request, and [invalidRequest] as body. *)
Theorem handleRequest_writes_at_most_one_response req timeout cc st :
  rtc (hstep fmt req timeout) (hinit req cc) st →
  ∃ extra,
    written (hs_cc st) = written cc ++ extra ∧
    (length extra ≤ 1)%nat ∧
    (hs_handler st = HReturned → length extra = 1%nat) ∧
    (∀ resp, resp ∈ extra →
       Seq resp.1 = Seq (h req) ∧
       ServiceMethod resp.1 = ServiceMethod (h req) ∧
       resp.2 = invalidRequest).
Proof.
  intros Hrun.
  destruct (hstep_phases req timeout cc st Hrun)
    as (extra & Hw & _ & _ & Hresp & Hphase).
  exists extra. split; [done|]. split; [|split; [|done]].
  - destruct Hphase as [(?&?&?&->)|[(?&?&->)|[(?&?&->)|(?&?&->)]]];
      simpl; lia.
  - intros Hret.
    destruct Hphase as [(?&?&?&?)|[(?&?&?)|[(?&?&?)|(?&?&?)]]];
      congruence.
Qed.

End one_response.

Section one_response_witness.
Import go codec reflect gpmd.

(** A run in which the timer fires before the method has returned. *)
Lemma one_response_witness :
  ∃ extra,
    written (sendResponse (mkCodec [] None [])
               (set_Error (handle_timeout_error (λ _, "1s") 1000000000)
                  (mkHeader "Foo.Sum" 1 ""))
               invalidRequest)
      = written (mkCodec [] None []) ++ extra ∧
    (length extra ≤ 1)%nat.
Proof.
  destruct (handleRequest_writes_at_most_one_response (λ _, "1s")
              (main.Foo_Sum_request (VStruct [VInt 3; VInt 4])) 1000000000
              (mkCodec [] None [])
              {| hs_h := set_Error (handle_timeout_error (λ _, "1s") 1000000000)
                           (mkHeader "Foo.Sum" 1 "");
                 hs_replyv := Some (New main.int_type);
                 hs_mType := Some main.Foo_Sum_methodType;
                 hs_cc := sendResponse (mkCodec [] None [])
                            (set_Error
                               (handle_timeout_error (λ _, "1s") 1000000000)
                               (mkHeader "Foo.Sum" 1 ""))
                            invalidRequest;
                 hs_worker := WCall; hs_handler := HReturned |})
    as (extra & Hw & Hlen & _).
  - eapply rtc_l; [apply step_start; reflexivity|].
    eapply rtc_l; [apply step_timer; reflexivity|].
    apply rtc_refl.
  - exists extra. by split.
Defined.

End one_response_witness.

(** ** The server: reading requests *)

Section reading.
Import go codec reflect gpmd.

(** [findService] returns a method only together with its service, and it
    returns either a method or an error. *)
Lemma findService_results (s : Server) key svc0 mt err :
  findService s key = (svc0, mt, err) →
  match mt, err with
  | Some m, None =>
      ∃ A B sv, serviceMap s !! A = Some sv ∧ smethod sv !! B = Some m ∧
                svc0 = Some sv
  | None, Some _ => True
  | _, _ => False
  end.
Proof.
  unfold findService. destruct (_ <? 0); [by intros [= <- <- <-]|].
  destruct (serviceMap s !! _) as [sv|] eqn:Hsv; [|by intros [= <- <- <-]].
  destruct (smethod sv !! _) as [m|] eqn:Hm; intros [= <- <- <-]; [|done].
  eexists _, _, sv. split; [exact Hsv|]. split; [exact Hm|done].
Qed.

Lemma carriers_of_a_pointer_reply (m : methodType) :
  kind (ReplyType m) = Pointer → is_Some (elem (ReplyType m)) →
  (kind (ArgType m) = Pointer → is_Some (elem (ArgType m))) →
  (∃ a, newArgv m = Ret a) ∧ (∃ r, newReply m = Ret (VPtr r)).
Proof.
  intros Hk [e He] Ha. split.
  - unfold newArgv. case_bool_decide as Hp; [|by eexists].
    destruct (Ha Hp) as [e' He']. unfold Type_Elem. rewrite Hp, He'.
    by eexists.
  - unfold newReply, Type_Elem. rewrite Hk, He. simpl.
    destruct (kind e); by eexists.
Qed.


Lemma readRequest_one_frame (s : Server) (cc : Codec) :
  pointer_replies s →
  ∃ req err cc', readRequest s cc = Ret ((req, err), cc') ∧
    written cc' = written cc ∧
    (incoming cc = [] → req = None ∧ err = Some EOF ∧ cc' = cc) ∧
    (∀ f rest, incoming cc = f :: rest →
       incoming cc' = rest ∧
       ∃ rq, req = Some rq ∧ h rq = fheader f ∧
         (err = None →
          ∃ m v a, mType rq = Some m ∧ is_Some (svc rq) ∧ fbody f = inl v ∧
            argv rq = Some (if bool_decide (kind (ArgType m) = Pointer)
                            then VPtr v else v) ∧
            replyv rq = Some (VPtr a))).
Proof.
  intros Hwf. unfold readRequest, readRequestHeader, ReadHeader.
  destruct (incoming cc) as [|f rest] eqn:Hin.
  { exists None, (Some EOF), cc. by repeat split. }
  cbn [fst snd].
  destruct (findService s (ServiceMethod (fheader f))) as [[sv mt] err] eqn:Hf.
  pose proof (findService_results _ _ _ _ _ Hf) as Hres.
  destruct err as [err|].
  { destruct mt as [m|]; [done|].
    eexists _, _, _. split; [reflexivity|]. split; [done|]. split; [done|].
    intros f' rest' [= <- <-]. split; [done|]. eexists. by repeat split. }
  destruct mt as [m|]; [|done].
  destruct Hres as (A & B & sv0 & HA & HB & ->).
  destruct (Hwf A sv0 B m HA HB) as (Hk & He & Ha).
  destruct (carriers_of_a_pointer_reply m Hk He Ha) as [[a Hargv] [r Hreply]].
  rewrite Hargv, Hreply. simpl. unfold ReadBody. simpl.
  destruct (fbody f) as [v|e] eqn:Hb.
  - eexists _, _, _. split; [reflexivity|]. split; [done|]. split; [done|].
    intros f' rest' [= <- <-]. split; [done|]. eexists. split; [done|].
    split; [done|]. intros _. exists m, v, r. rewrite Hb.
    by repeat split.
  - eexists _, _, _. split; [reflexivity|]. split; [done|]. split; [done|].
    intros f' rest' [= <- <-]. split; [done|]. eexists. by repeat split.
Qed.

(** On a server whose methods take their reply through a pointer,
    [readRequest] never panics. At the end of the input it returns the
    error of the codec and no request; otherwise it takes one frame, writes
    nothing, and returns a request with the header of that frame; when it
    returns no error the request has its method and service, its argument
    is the decoded body (behind a pointer for a pointer type) and its reply
    is a pointer. *)
Theorem readRequest_reads_one_frame_and_never_panics (s : Server) (cc : Codec) :
  pointer_replies s →
  ∃ req err cc', readRequest s cc = Ret ((req, err), cc') ∧
    written cc' = written cc ∧
    (incoming cc = [] → req = None ∧ err = Some EOF ∧ cc' = cc) ∧
    (∀ f rest, incoming cc = f :: rest →
       incoming cc' = rest ∧
       ∃ rq, req = Some rq ∧ h rq = fheader f ∧
         (err = None →
          ∃ m v a, mType rq = Some m ∧ is_Some (svc rq) ∧ fbody f = inl v ∧
            argv rq = Some (if bool_decide (kind (ArgType m) = Pointer)
                            then VPtr v else v) ∧
            replyv rq = Some (VPtr a))).
Proof. apply readRequest_one_frame. Qed.




(** The server of the examples takes its replies through pointers. *)
Lemma server_of_foo_pointer_replies : pointer_replies (main.server_of main.foo).
Proof.
  intros A sv B m HA HB.
  assert (HA' : A = "Foo" ∧ sv = main.Foo_service).
  { change (serviceMap (main.server_of main.foo))
      with (<["Foo" := main.Foo_service]> (∅ : gmap string service)) in HA.
    apply lookup_insert_Some in HA as [[<- <-]|[_ HA]]; [done|].
    by rewrite lookup_empty in HA. }
  destruct HA' as [-> ->].
  destruct (registerMethod_fold_sound [main.Foo_Sum] B m ∅ HB)
    as [Hacc|(m0 & recv & Hin & _ & HIn & _ & _ & _ & _ & _)];
    [by rewrite lookup_empty in Hacc|].
  apply list_elem_of_singleton in Hin as ->.
  injection HIn as _ <- <-. by repeat split; eauto.
Qed.

Lemma readRequest_witness :
  ∃ req err cc',
    readRequest (main.server_of main.foo)
      (main.one_request "Foo.Sum" (VStruct [VInt 3; VInt 4]))
    = Ret ((req, err), cc') ∧
    written cc' = [].
Proof.
  destruct (readRequest_reads_one_frame_and_never_panics
              (main.server_of main.foo)
              (main.one_request "Foo.Sum" (VStruct [VInt 3; VInt 4]))
              server_of_foo_pointer_replies)
    as (req & err & cc' & HR & Hw & _).
  exists req, err, cc'. by split.
Defined.


End reading.

(** ** The handshake, from both ends *)

Section handshake_more.
Import go codec reflect gpmd.
Implicit Types (st : gmap positive Option) (opts : list (option positive)).

Lemma NewCodecFuncMap_lookup (t f : string) :
  NewCodecFuncMap !! t = Some f ↔ t = GobType ∧ f = "NewGobCodec".
Proof.
  unfold NewCodecFuncMap. rewrite lookup_singleton_Some.
  split; [by intros [<- <-]|by intros [-> ->]].
Qed.

(** [ServeConn] goes on to serve a connection exactly when the [Option] it
    decoded has the magic number of the protocol and the codec type gob,
    the only one [init] enters in [NewCodecFuncMap]; [JsonType] is declared
    but refused. *)
Theorem ServeConn_accepts_exactly_the_magic_number_with_gob
    (decoded : option Option) (f : string) :
  (ServeConn_handshake decoded = Accepted f ↔
   ∃ opt, decoded = Some opt ∧ OMagicNumber opt = MagicNumber ∧
          CodeType opt = GobType ∧ f = "NewGobCodec") ∧
  ServeConn_handshake
    (Some (mkOption MagicNumber JsonType 0 0)) = BadCodecType.
Proof.
  split; [|reflexivity]. unfold ServeConn_handshake. split.
  - destruct decoded as [opt|]; [|done].
    destruct (Z.eqb_spec (OMagicNumber opt) MagicNumber) as [Hm|Hm];
      simpl; [|done].
    destruct (NewCodecFuncMap !! CodeType opt) as [f'|] eqn:Hf; [|done].
    intros [= ->]. apply NewCodecFuncMap_lookup in Hf as [? ?].
    by exists opt.
  - intros (opt & -> & Hm & Hc & ->). rewrite Hm, Hc. reflexivity.
Qed.

(** What [Dial] does once the options are parsed and the connection is
    dialled, when the goroutine that builds the client is the one the
    [select] sees. *)
Lemma Dial_after_dial fmt enc nd sched opts st p st' o conn :
  parseOptions opts st = Ret ((Some p, None), st') →
  st' !! p = Some o →
  nd (ConnectTimeout o) = inl conn →
  ConnectTimeout o = 0 ∨ sched = ResultFirst →
  Dial fmt enc nd sched opts st =
  (res ← NewClient enc conn p st';
   Ret {| d_client := res.1.1; d_err := res.1.2;
          d_conn := Some (close_on_error res.1.2 res.2);
          d_store := st' |}).
Proof.
  intros Hp Ho Hnd Hs. unfold Dial, dialTimeout. rewrite Hp. simpl.
  unfold load at 1. rewrite Ho. simpl. rewrite Hnd.
  destruct Hs as [->| ->]; [done|]. by destruct (ConnectTimeout o =? 0).
Qed.

(** The two ends agree: when [Dial] returns a client, the connection is
    open, and what was written to it is one [Option] that [ServeConn]
    accepts. *)
Theorem Dial_that_returns_a_client_wrote_a_handshake_ServeConn_accepts
    (fmt : Z → string) (enc : option string) (nd : Z → Conn + string)
    (sched : race) (opts : list (option positive))
    (st : gmap positive Option) (d : dialed) (c : Client) :
  st !! DefaultOption = Some DefaultOption_init →
  (∀ t conn, nd t = inl conn → conn_options conn = [] ∧ conn_closes conn = 0%nat) →
  Dial fmt enc nd sched opts st = Ret d →
  d_client d = Some c →
  d_err d = None ∧
  ∃ conn' o, d_conn d = Some conn' ∧ conn_closes conn' = 0%nat ∧
             conn_options conn' = [o] ∧
             ServeConn_handshake (Some o) = Accepted "NewGobCodec".
Proof.
  intros Hd Hfresh HD Hc. unfold Dial, dialTimeout in HD.
  destruct (parseOptions opts st) as [[[[p|] [e|]] st']| |] eqn:Hp;
    simpl in HD; try done;
    try (injection HD as <-; simpl in Hc; done).
  destruct (parseOptions_magic opts st p st' Hd Hp) as (o & Ho & Hm & _).
  unfold load in HD. rewrite Ho in HD. simpl in HD.
  destruct (nd (ConnectTimeout o)) as [conn|e] eqn:Hnd;
    [|injection HD as <-; done].
  destruct (Hfresh _ _ Hnd) as [Hopts Hcl].
  assert (HN : NewClient enc conn p st' ≫=
               (λ res, Ret {| d_client := res.1.1; d_err := res.1.2;
                              d_conn := Some (close_on_error res.1.2 res.2);
                              d_store := st' |}) = Ret d).
  { destruct (ConnectTimeout o =? 0); [done|].
    destruct sched; [injection HD as <-; done|done]. }
  clear HD. unfold NewClient, load in HN. rewrite Ho in HN. simpl in HN.
  destruct (NewCodecFuncMap !! CodeType o) as [f|] eqn:Hf; simpl in HN;
    [|injection HN as <-; done].
  apply NewCodecFuncMap_lookup in Hf as [Hc' ->].
  destruct enc as [e|]; injection HN as <-; [done|]. simpl.
  split; [done|]. eexists _, o. split; [done|]. simpl.
  split; [done|]. rewrite Hopts. split; [done|].
  unfold ServeConn_handshake. rewrite Hm, Hc'. reflexivity.
Qed.

Lemma Dial_client_witness :
  ∃ conn' o,
    Some (mkConn [mkOption MagicNumber GobType 0 0] 0) = Some conn' ∧
    conn_closes conn' = 0%nat ∧ conn_options conn' = [o] ∧
    ServeConn_handshake (Some o) = Accepted "NewGobCodec".
Proof.
  refine (proj2 (Dial_that_returns_a_client_wrote_a_handshake_ServeConn_accepts
            (λ _, "0s") None (λ _, inl (mkConn [] 0)) ResultFirst
            [Some 2%positive]
            (<[2%positive := mkOption 7 "" 0 0]> store_init)
            {| d_client := Some (NewClientCodec 2%positive); d_err := None;
               d_conn := Some (mkConn [mkOption MagicNumber GobType 0 0] 0);
               d_store := <[2%positive := mkOption MagicNumber GobType 0 0]>
                            (<[2%positive := mkOption 7 "" 0 0]> store_init) |}
            (NewClientCodec 2%positive) _ _ _ _)).
  - reflexivity.
  - intros t conn [= <-]. done.
  - reflexivity.
  - reflexivity.
Defined.

(** [dialTimeout] owns the connection it dialled: whenever it returns an
    error after the dial, [conn.Close] ran as its last act; and when it
    returns no error, the client and the connection are those the
    constructor [f] returned for the dialled connection, untouched. *)
Theorem dialTimeout_closes_the_connection_on_every_error
    (fmt : Z → string)
    (f : Conn → positive → gmap positive Option →
         outcome ((option Client * option string) * Conn))
    (nd : Z → Conn + string) (sched : race)
    (opts : list (option positive)) (st : gmap positive Option)
    (d : dialed) (conn' : Conn) :
  dialTimeout fmt f nd sched opts st = Ret d →
  d_conn d = Some conn' →
  (is_Some (d_err d) → ∃ c0, conn' = Conn_Close c0) ∧
  (d_err d = None →
   ∃ p st' o conn, parseOptions opts st = Ret ((Some p, None), st') ∧
     st' !! p = Some o ∧ nd (ConnectTimeout o) = inl conn ∧
     f conn p st' = Ret ((d_client d, None), conn')).
Proof.
  intros HD Hconn. unfold dialTimeout in HD.
  destruct (parseOptions opts st) as [[[[p|] [e|]] st']| |] eqn:Hp;
    simpl in HD; try done;
    try (injection HD as <-; simpl in Hconn; done).
  destruct (st' !! p) as [o|] eqn:Ho; unfold load in HD; rewrite Ho in HD;
    simpl in HD; [|done].
  destruct (nd (ConnectTimeout o)) as [conn|e] eqn:Hnd;
    [|injection HD as <-; done].
  assert (Hcases :
    d = {| d_client := None;
           d_err := Some (connect_timeout_error fmt (ConnectTimeout o));
           d_conn := Some (Conn_Close conn); d_store := st' |} ∨
    f conn p st' ≫=
      (λ res, Ret {| d_client := res.1.1; d_err := res.1.2;
                     d_conn := Some (close_on_error res.1.2 res.2);
                     d_store := st' |}) = Ret d).
  { destruct (ConnectTimeout o =? 0); [by right|].
    destruct sched; [left; by injection HD as <-|by right]. }
  clear HD. destruct Hcases as [->|HD].
  - injection Hconn as <-. split; [by eexists|done].
  - destruct (f conn p st') as [[[cl err] c1]| |] eqn:Hf; simpl in HD;
      try done.
    injection HD as <-. simpl in *. injection Hconn as <-.
    split.
    + intros [e ->]. by eexists.
    + intros ->. exists p, st', o, conn. by repeat split.
Qed.

(** Writing the options fails: [NewClient] closes the connection, and the
    deferred function of [dialTimeout] closes it once more. *)
Lemma dialTimeout_error_witness :
  ∃ c0, mkConn [] 2 = Conn_Close c0.
Proof.
  refine (proj1 (dialTimeout_closes_the_connection_on_every_error
            (λ _, "0s") (NewClient (Some "broken pipe"))
            (λ _, inl (mkConn [] 0)) ResultFirst [] store_init
            {| d_client := None; d_err := Some "broken pipe";
               d_conn := Some (mkConn [] 2); d_store := store_init |}
            (mkConn [] 2) _ _) _).
  - reflexivity.
  - reflexivity.
  - by eexists.
Defined.

(** A codec type other than gob, [JsonType] included, passes
    [parseOptions] but not [NewClient]: [Dial] fails with
    [invalid codec type], nothing is written to the connection, and the
    connection is closed once. *)
Theorem Dial_with_an_unsupported_codec_type_fails
    (fmt : Z → string) (enc : option string) (nd : Z → Conn + string)
    (st : gmap positive Option) (q : positive) (o0 : Option) (conn : Conn) :
  st !! DefaultOption = Some DefaultOption_init →
  st !! q = Some o0 →
  CodeType o0 ≠ "" → CodeType o0 ≠ GobType →
  nd (ConnectTimeout o0) = inl conn →
  ∃ st', Dial fmt enc nd ResultFirst [Some q] st =
         Ret {| d_client := None;
                d_err := Some ("invalid codec type " +:+ CodeType o0);
                d_conn := Some (Conn_Close conn); d_store := st' |}.
Proof.
  intros Hd Hq Hne Hgob Hnd.
  pose proof (parseOptions_single st q o0 Hd Hq) as Hp.
  destruct (String.eqb_spec (CodeType o0) "") as [?|_]; [done|].
  eexists.
  rewrite (Dial_after_dial fmt enc nd ResultFirst [Some q] st q _ _ conn Hp
             (lookup_insert_eq _ _ _) Hnd (or_intror eq_refl)).
  unfold NewClient, load. rewrite lookup_insert_eq. simpl.
  destruct (NewCodecFuncMap !! CodeType o0) as [f|] eqn:Hf.
  { apply NewCodecFuncMap_lookup in Hf as [? _]. done. }
  reflexivity.
Qed.

Lemma Dial_json_witness :
  ∃ st', Dial (λ _, "0s") None (λ _, inl (mkConn [] 0)) ResultFirst
           [Some 2%positive]
           (<[2%positive := mkOption 0 JsonType 0 0]> store_init) =
         Ret {| d_client := None;
                d_err := Some "invalid codec type application/json";
                d_conn := Some (mkConn [] 1); d_store := st' |}.
Proof.
  refine (Dial_with_an_unsupported_codec_type_fails (λ _, "0s") None
            (λ _, inl (mkConn [] 0))
            (<[2%positive := mkOption 0 JsonType 0 0]> store_init)
            2%positive (mkOption 0 JsonType 0 0) (mkConn [] 0) _ _ _ _ _).
  - reflexivity.
  - reflexivity.
  - discriminate.
  - discriminate.
  - reflexivity.
Defined.

End handshake_more.

Section options_more.
Import go codec reflect gpmd.
Implicit Types (st : gmap positive Option) (opts : list (option positive)).

Lemma parseOptions_many
    opts st :
  (2 ≤ length opts)%nat →
  parseOptions opts st =
  match opts with
  | Some _ :: _ =>
      Ret ((None, Some "number of options is more than one"), st)
  | _ => Ret ((Some DefaultOption, None), st)
  end.
Proof.
  intros Hlen. destruct opts as [|[q|] [|x rest]]; simpl in Hlen; try lia;
    try done.
  unfold parseOptions.
  by destruct (Z.ltb_spec 1 (Z.of_nat (length (Some q :: x :: rest))))
    as [_|Hl]; [|simpl length in Hl; lia].
Qed.

(** [parseOptions] looks at the number of its arguments only after a
    non-nil first one: a nil first argument stands for [DefaultOption]
    whatever follows it, and more than one argument after a non-nil first
    is an error; in both cases no [Option] is read or written. *)
Theorem parseOptions_counts_its_arguments_only_after_a_first_option
    (opts : list (option positive)) (st : gmap positive Option) :
  (2 ≤ length opts)%nat →
  parseOptions opts st =
  match opts with
  | Some _ :: _ =>
      Ret ((None, Some "number of options is more than one"), st)
  | _ => Ret ((Some DefaultOption, None), st)
  end.
Proof. apply parseOptions_many. Qed.

Lemma parseOptions_count_witness :
  parseOptions [None; Some 2%positive] store_init
  = Ret ((Some DefaultOption, None), store_init) ∧
  parseOptions [Some 2%positive; None] store_init
  = Ret ((None, Some "number of options is more than one"), store_init).
Proof.
  split.
  - refine (parseOptions_counts_its_arguments_only_after_a_first_option
              [None; Some 2%positive] store_init _). simpl. lia.
  - refine (parseOptions_counts_its_arguments_only_after_a_first_option
              [Some 2%positive; None] store_init _). simpl. lia.
Defined.

(** [parseOptions] completes an [Option] in place, and a completed
    [Option] is left as it is: parsing the same arguments again returns the
    same result and changes nothing; and no [Option] other than the one
    passed is ever changed. *)
Theorem parseOptions_is_idempotent_and_writes_only_its_argument
    (opts : list (option positive)) (st : gmap positive Option)
    (r : option positive * option string) (st' : gmap positive Option) :
  st !! DefaultOption = Some DefaultOption_init →
  parseOptions opts st = Ret (r, st') →
  parseOptions opts st' = Ret (r, st') ∧
  (∀ q, Some q ∉ opts → st' !! q = st !! q).
Proof.
  intros Hd Hp. destruct opts as [|[q|] rest].
  - injection Hp as <- <-. by split.
  - destruct rest as [|x rest].
    2:{ rewrite parseOptions_many
          in Hp by (simpl; lia).
        injection Hp as <- <-. split; [|done].
        by rewrite parseOptions_many
          by (simpl; lia). }
    destruct (st !! q) as [o0|] eqn:Hq.
    + rewrite (parseOptions_single st q o0 Hd Hq) in Hp.
      injection Hp as <- <-. split.
      * erewrite parseOptions_single; [|..|apply lookup_insert_eq].
        -- simpl. rewrite insert_insert_eq. do 3 f_equal.
           destruct (String.eqb_spec (CodeType o0) "") as [He|Hne];
             simpl; [done|].
           by destruct (String.eqb_spec (CodeType o0) "").
        -- destruct (decide (q = DefaultOption)) as [->|Hne].
           ++ rewrite lookup_insert_eq. rewrite Hd in Hq.
              by injection Hq as <-.
           ++ by rewrite lookup_insert_ne.
      * intros q' Hq'. rewrite lookup_insert_ne; [done|].
        intros ->. apply Hq'. by left.
    + unfold parseOptions in Hp. simpl in Hp.
      unfold load in Hp. rewrite Hd, Hq in Hp. done.
  - injection Hp as <- <-. by split.
Qed.

Lemma parseOptions_idempotent_witness :
  parseOptions [Some 2%positive]
    (<[2%positive := mkOption MagicNumber GobType 5 0]>
       (<[2%positive := mkOption 42 "" 5 0]> store_init))
  = Ret ((Some 2%positive, None),
         <[2%positive := mkOption MagicNumber GobType 5 0]>
           (<[2%positive := mkOption 42 "" 5 0]> store_init)).
Proof.
  refine (proj1 (parseOptions_is_idempotent_and_writes_only_its_argument
            [Some 2%positive]
            (<[2%positive := mkOption 42 "" 5 0]> store_init) _ _ _ _)).
  - reflexivity.
  - reflexivity.
Defined.

End options_more.

(** ** The client: closing, shutting down, and sequence numbers *)

Ltac client_steps Hstep :=
  inversion Hstep as
    [st0 call sm Hs Hfresh
    |st0 call seq0 client' calls' Hs Hreg
    |st0 call seq0 err client' calls' Hs Hreg
    |st0 call err Hs
    |st0 call seq0 Hs
    |st0 call seq0 err Hs
    |st0 seq0 err Hs
    |st0 call err Hs
    |st0 err Hr
    |st0 hd berr Hr
    |st0 call hd berr Hr
    |st0 err Hr Hs
    |st0]; subst;
  cbn [gpmd.cs_client gpmd.cs_calls gpmd.cs_signalled gpmd.cs_registered
       gpmd.cs_lost gpmd.cs_sender gpmd.cs_receiver] in *.

Section client_methods.
Import go codec gpmd.


(** [registerCall] accepts a call exactly when [IsAvailable] holds; when it
    refuses, the error is [ErrShutdown] and neither the client nor the call
    is touched; when it accepts, the call gets the current sequence number
    and is filed under it, and the counter moves on by one. *)
Theorem registerCall_accepts_exactly_on_an_available_client
    (call : nat) (client : Client) (calls : gmap nat Call) :
  ((registerCall call client calls).1.1.2 = None ↔
   IsAvailable client = true) ∧
  (IsAvailable client = false →
   registerCall call client calls = ((0, Some ErrShutdown), client, calls)) ∧
  (IsAvailable client = true →
   (registerCall call client calls).1.1.1 = seq client ∧
   pending (registerCall call client calls).1.2 !! seq client = Some call ∧
   seq (registerCall call client calls).1.2 = uint64_wrap (seq client + 1) ∧
   IsAvailable (registerCall call client calls).1.2 = true ∧
   ∀ c, calls !! call = Some c →
        (registerCall call client calls).2 !! call
        = Some (set_CSeq (seq client) c)).
Proof.
  unfold registerCall, IsAvailable.
  destruct (closing client) eqn:Hc, (shutdown client) eqn:Hs; simpl;
    try (split; [done|]; split; done).
  split; [done|]. split; [done|]. intros _. rewrite ?Hc, ?Hs.
  split; [done|]. split; [apply lookup_insert_eq|]. split; [done|].
  split; [done|]. intros c Hcall. by rewrite lookup_alter_eq, Hcall.
Qed.

Lemma registerCall_witness :
  registerCall 0%nat (Close (NewClientCodec 1%positive)).2 ∅
  = ((0, Some ErrShutdown), (Close (NewClientCodec 1%positive)).2, ∅).
Proof.
  refine (proj1 (proj2 (registerCall_accepts_exactly_on_an_available_client
            0%nat (Close (NewClientCodec 1%positive)).2 ∅)) _).
  reflexivity.
Defined.

Lemma foldr_alter_lookup (f : Call → Call) (l : list nat)
    (calls : gmap nat Call) (c : nat) :
  (∀ x, f (f x) = f x) →
  foldr (λ call cs, alter f call cs) calls l !! c =
  if decide (c ∈ l) then f <$> calls !! c else calls !! c.
Proof.
  intros Hidem. induction l as [|x l IH]; simpl; [done|].
  destruct (decide (x = c)) as [->|Hne].
  - rewrite lookup_alter_eq, IH.
    rewrite (decide_True (P := c ∈ c :: l)) by by left.
    case_decide; [|done].
    destruct (calls !! c); simpl; [by rewrite Hidem|done].
  - rewrite lookup_alter_ne by done. rewrite IH.
    destruct (decide (c ∈ l)) as [Hin|Hnin].
    + by rewrite decide_True by by right.
    + rewrite decide_False; [done|].
      intros [->|?]%elem_of_cons; done.
Qed.

(** [terminateCalls(err)] shuts the client down, sets the error of every
    call in [pending] to [err] and signals it, once per entry; no other
    call is changed, and the entries of [pending] stay where they are. *)
Theorem terminateCalls_fails_the_pending_calls_and_no_other
    (err : string) (client : Client) (calls : gmap nat Call)
    (signalled : list nat) (c : nat) :
  let r := terminateCalls err client calls signalled in
  shutdown r.1.1 = true ∧ IsAvailable r.1.1 = false ∧
  pending r.1.1 = pending client ∧
  (∀ k, pending client !! k = Some c →
        r.1.2 !! c = set_CError (Some err) <$> calls !! c) ∧
  ((∀ k, pending client !! k ≠ Some c) → r.1.2 !! c = calls !! c) ∧
  (∃ met, r.2 = signalled ++ met ∧
          length met = size (pending client) ∧
          ∀ c', c' ∈ met ↔ ∃ k, pending client !! k = Some c').
Proof.
  assert (Hmet : ∀ c', c' ∈ (map_to_list (pending client)).*2 ↔
                       ∃ k, pending client !! k = Some c').
  { intros c'. rewrite list_elem_of_fmap. split.
    - intros ([k c0] & -> & Hin). exists k. by apply elem_of_map_to_list.
    - intros [k Hk]. exists (k, c'). split; [done|].
      by apply elem_of_map_to_list. }
  unfold terminateCalls. cbn [fst snd shutdown pending IsAvailable].
  split; [done|]. split; [done|]. split; [done|]. split; [|split].
  - intros k Hk. rewrite foldr_alter_lookup by done.
    rewrite decide_True; [done|]. apply Hmet. by exists k.
  - intros Hno. rewrite foldr_alter_lookup by done.
    rewrite decide_False; [done|]. rewrite Hmet. intros [k Hk].
    by apply (Hno k).
  - exists (map_to_list (pending client)).*2. split; [done|].
    split; [|exact Hmet].
    by rewrite length_fmap, length_map_to_list.
Qed.

End client_methods.

Section client_runs.
Import go codec gpmd.

Lemma IsAvailable_false (client : Client) :
  IsAvailable client = false ↔ closing client || shutdown client = true.
Proof.
  unfold IsAvailable. destruct (closing client), (shutdown client); done.
Qed.

Lemma unavailable_step st st' :
  cstep st st' → IsAvailable (cs_client st) = false →
  IsAvailable (cs_client st') = false ∧
  cs_registered st' = cs_registered st ∧
  seq (cs_client st') = seq (cs_client st) ∧
  ∀ k, is_Some (pending (cs_client st') !! k) →
       is_Some (pending (cs_client st) !! k).
Proof.
  intros Hstep Hna. apply IsAvailable_false in Hna.
  client_steps Hstep; rewrite ?IsAvailable_false;
    try (split; [done|]; split; [done|]; split; done).
  - unfold registerCall in Hreg. by rewrite Hna in Hreg.
  - destruct (registerCall_err _ _ _ _ _ _ _ Hreg) as [-> ->].
    split; [done|]. split; [done|]. split; done.
  - simpl. split; [done|]. split; [done|]. split; [done|].
    intros k [c Hk]. apply lookup_delete_Some in Hk as [_ Hk]. by eexists.
  - simpl. split; [done|]. split; [done|]. split; [done|].
    intros k [c Hk]. apply lookup_delete_Some in Hk as [_ Hk]. by eexists.
  - simpl. split; [apply orb_true_r|]. split; [done|]. split; done.
  - unfold Close. destruct (closing (cs_client st)) eqn:Hc; simpl.
    + rewrite Hc. split; [done|]. split; [done|]. split; done.
    + split; [done|]. split; [done|]. split; done.
Qed.

(** A client that is closing or shut down never becomes available again:
    whatever its goroutines and its users do, no call is registered on it
    any more, the counter [seq] stands still and [pending] only shrinks. *)
Theorem a_client_that_is_not_available_stays_so (st st' : cstate) :
  rtc cstep st st' → IsAvailable (cs_client st) = false →
  IsAvailable (cs_client st') = false ∧
  cs_registered st' = cs_registered st ∧
  seq (cs_client st') = seq (cs_client st) ∧
  ∀ k, is_Some (pending (cs_client st') !! k) →
       is_Some (pending (cs_client st) !! k).
Proof.
  intros Hrun Hna. revert st' Hrun. apply rtc_ind_r.
  { split; [done|]. split; [done|]. split; done. }
  intros st1 st2 _ Hstep (IH1 & IH2 & IH3 & IH4).
  destruct (unavailable_step st1 st2 Hstep IH1) as (H1 & H2 & H3 & H4).
  split; [done|]. split; [congruence|]. split; [congruence|]. eauto.
Qed.

(** After [Close], [Go] leads to a refused registration. *)
Lemma unavailable_witness :
  IsAvailable (Close (NewClientCodec 1%positive)).2 = false ∧
  cs_registered
    (mkCstate (Close (NewClientCodec 1%positive)).2
       (<[0%nat := mkCall 0 "Foo.Sum" None]> ∅) [] [] []
       (SRegFailed 0%nat ErrShutdown) RLoop) = [].
Proof.
  pose proof (a_client_that_is_not_available_stays_so
    (mkCstate (Close (NewClientCodec 1%positive)).2 ∅ [] [] [] SIdle RLoop)
    (mkCstate (Close (NewClientCodec 1%positive)).2
       (<[0%nat := mkCall 0 "Foo.Sum" None]> ∅) [] [] []
       (SRegFailed 0%nat ErrShutdown) RLoop)) as H.
  destruct H as (H1 & H2 & _).
  - eapply rtc_l.
    { apply (step_go _ 0%nat "Foo.Sum"); [reflexivity|apply lookup_empty]. }
    eapply rtc_l.
    { eapply (step_register_err _ 0%nat 0 ErrShutdown);
        [reflexivity|reflexivity]. }
    apply rtc_refl.
  - reflexivity.
  - split; [exact H1|exact H2].
Defined.

End client_runs.

Section client_numbers.
Import go codec gpmd.

Ltac client_run step :=
  eapply rtc_l; [step|];
  cbn [cs_client cs_calls cs_signalled cs_registered cs_lost cs_sender
       cs_receiver cinit NewClientCodec registerCall removeCall
       terminateCalls Close set_header after_body
       copt header seq pending closing shutdown orb fst snd Seq];
  repeat first
    [ rewrite lookup_insert_eq
    | rewrite lookup_insert_ne by done
    | rewrite lookup_delete_eq
    | rewrite lookup_delete_ne by done
    | rewrite lookup_empty ].

Lemma CSeq_delivered_error hd berr c :
  CSeq (delivered_error hd berr c) = CSeq c.
Proof.
  unfold delivered_error. destruct (negb _); [done|]. by destruct berr.
Qed.

Lemma CSeq_alter (f : Call → Call) (calls : gmap nat Call) x c k :
  (∀ y, CSeq (f y) = CSeq y) →
  (∃ cl, calls !! c = Some cl ∧ CSeq cl = k) →
  ∃ cl, alter f x calls !! c = Some cl ∧ CSeq cl = k.
Proof.
  intros Hf (cl & Hc & Hk). destruct (decide (x = c)) as [->|Hne].
  - exists (f cl). rewrite lookup_alter_eq, Hc. by rewrite Hf.
  - exists cl. by rewrite lookup_alter_ne.
Qed.

Lemma CSeq_foldr_alter (f : Call → Call) (l : list nat)
    (calls : gmap nat Call) c k :
  (∀ y, CSeq (f y) = CSeq y) →
  (∃ cl, calls !! c = Some cl ∧ CSeq cl = k) →
  ∃ cl, foldr (λ call cs, alter f call cs) calls l !! c = Some cl ∧
        CSeq cl = k.
Proof.
  intros Hf Hc. induction l as [|x l IH]; simpl; [done|].
  by apply CSeq_alter.
Qed.

(** What every state of a client satisfies: an entry of [pending] is filed
    under the sequence number its call carries; the call the receiver holds
    carries the number of the header that was read; the call a sender is
    about to register exists, and neither [pending] nor the receiver hold
    it. *)
Lemma filed_step st st' :
  cstep st st' →
  ((∀ k c, pending (cs_client st) !! k = Some c →
      ∃ cl, cs_calls st !! c = Some cl ∧ CSeq cl = k) ∧
   (∀ c hd, cs_receiver st = RHave c hd →
      ∃ cl, cs_calls st !! c = Some cl ∧ CSeq cl = Seq hd) ∧
   (∀ c, cs_sender st = SLocked c →
      is_Some (cs_calls st !! c) ∧
      (∀ k, pending (cs_client st) !! k ≠ Some c) ∧
      (∀ hd, cs_receiver st ≠ RHave c hd))) →
  ((∀ k c, pending (cs_client st') !! k = Some c →
      ∃ cl, cs_calls st' !! c = Some cl ∧ CSeq cl = k) ∧
   (∀ c hd, cs_receiver st' = RHave c hd →
      ∃ cl, cs_calls st' !! c = Some cl ∧ CSeq cl = Seq hd) ∧
   (∀ c, cs_sender st' = SLocked c →
      is_Some (cs_calls st' !! c) ∧
      (∀ k, pending (cs_client st') !! k ≠ Some c) ∧
      (∀ hd, cs_receiver st' ≠ RHave c hd))).
Proof.
  intros Hstep (J1 & J2 & J3). client_steps Hstep.
  - (* Go *)
    assert (Hother : ∀ c cl, cs_calls st !! c = Some cl → call ≠ c).
    { intros c cl Hc ->. congruence. }
    split; [|split].
    + intros k c Hk. destruct (J1 k c Hk) as (cl & Hc & Hq).
      exists cl. by rewrite lookup_insert_ne by by eapply Hother.
    + intros c hd Hr. destruct (J2 c hd Hr) as (cl & Hc & Hq).
      exists cl. by rewrite lookup_insert_ne by by eapply Hother.
    + intros c [= <-]. rewrite lookup_insert_eq. split; [by eexists|].
      split.
      * intros k Hk. destruct (J1 k call Hk) as (cl & Hc & _). congruence.
      * intros hd Hr. destruct (J2 call hd Hr) as (cl & Hc & _). congruence.
  - (* registerCall accepts *)
    destruct (registerCall_ok _ _ _ _ _ _ Hreg)
      as (_ & -> & _ & Hp' & _ & ->).
    destruct (J3 call Hs) as ([cl0 Hcl0] & Hnp & Hnr).
    split; [|split; [|done]].
    + intros k c. rewrite Hp'.
      destruct (decide (seq (cs_client st) = k)) as [<-|Hne].
      * rewrite lookup_insert_eq. intros [= <-].
        exists (set_CSeq (seq (cs_client st)) cl0).
        by rewrite lookup_alter_eq, Hcl0.
      * rewrite lookup_insert_ne by done. intros Hk.
        destruct (J1 k c Hk) as (cl & Hc & Hq). exists cl.
        rewrite lookup_alter_ne; [done|]. intros <-. by apply (Hnp k).
    + intros c hd Hr. destruct (J2 c hd Hr) as (cl & Hc & Hq). exists cl.
      rewrite lookup_alter_ne; [done|]. intros <-. by apply (Hnr hd).
  - (* registerCall refuses *)
    destruct (registerCall_err _ _ _ _ _ _ _ Hreg) as [-> ->].
    split; [done|]. split; [done|]. done.
  - split; [|split; [|done]].
    + intros k c Hk. by apply CSeq_alter, J1.
    + intros c hd Hr. by apply CSeq_alter, J2.
  - split; [done|]. split; [done|]. done.
  - split; [done|]. split; [done|]. done.
  - split; [|split; [done|]].
    + intros k c Hk. simpl in Hk. apply lookup_delete_Some in Hk as [_ Hk].
      by apply J1.
    + intros c Hc. simpl in Hc.
      by destruct (pending (cs_client st) !! seq0).
  - split; [|split; [|done]].
    + intros k c Hk. by apply CSeq_alter, J1.
    + intros c hd Hr. by apply CSeq_alter, J2.
  - split; [done|]. split; [done|].
    intros c Hc. destruct (J3 c Hc) as (? & ? & ?). done.
  - (* a header is read *)
    split; [|split].
    + intros k c Hk. simpl in Hk. apply lookup_delete_Some in Hk as [_ Hk].
      by apply J1.
    + intros c hd' Hh. simpl in Hh.
      destruct (pending (cs_client st) !! Seq hd) as [c0|] eqn:Hc0.
      * injection Hh as <- <-. by apply J1.
      * by destruct berr.
    + intros c Hc. destruct (J3 c Hc) as (Hex & Hnp & Hnr).
      split; [done|]. split.
      * intros k Hk. simpl in Hk. apply lookup_delete_Some in Hk as [_ Hk].
        by apply (Hnp k).
      * intros hd' Hh. simpl in Hh.
        destruct (pending (cs_client st) !! Seq hd) as [c0|] eqn:Hc0.
        -- injection Hh as -> _. by apply (Hnp (Seq hd)).
        -- by destruct berr.
  - (* the call is completed *)
    split; [|split].
    + intros k c Hk. apply CSeq_alter; [apply CSeq_delivered_error|].
      by apply J1.
    + intros c hd' Hh. by destruct berr.
    + intros c Hc. destruct (J3 c Hc) as ([cl Hcl] & Hnp & Hnr).
      split.
      * destruct (CSeq_alter (delivered_error hd berr) (cs_calls st) call c
                    (CSeq cl) (CSeq_delivered_error hd berr))
          as (cl' & Hcl' & _); [by exists cl|]. by eexists.
      * split; [done|]. intros hd'. by destruct berr.
  - (* terminateCalls *)
    split; [|split; [done|done]].
    intros k c Hk. simpl in *. by apply CSeq_foldr_alter, J1.
  - (* Close *)
    assert (Hp : pending (Close (cs_client st)).2 = pending (cs_client st)).
    { unfold Close. by destruct (closing (cs_client st)). }
    rewrite Hp. split; [done|]. split; [done|]. done.
Qed.

(** The client matches responses to calls by sequence number: in every
    state a client can reach, the call filed in [pending] under a number is
    the call that carries this number, and the call [receive] is about to
    complete with a response carries the sequence number of that response's
    header. *)
Theorem a_response_completes_the_call_that_carries_its_number
    (opt : positive) (st : cstate) :
  rtc cstep (cinit opt) st →
  (∀ k c, pending (cs_client st) !! k = Some c →
     ∃ cl, cs_calls st !! c = Some cl ∧ CSeq cl = k) ∧
  (∀ c hd, cs_receiver st = RHave c hd →
     ∃ cl, cs_calls st !! c = Some cl ∧ CSeq cl = Seq hd).
Proof.
  intros Hrun.
  cut ((∀ k c, pending (cs_client st) !! k = Some c →
          ∃ cl, cs_calls st !! c = Some cl ∧ CSeq cl = k) ∧
       (∀ c hd, cs_receiver st = RHave c hd →
          ∃ cl, cs_calls st !! c = Some cl ∧ CSeq cl = Seq hd) ∧
       (∀ c, cs_sender st = SLocked c →
          is_Some (cs_calls st !! c) ∧
          (∀ k, pending (cs_client st) !! k ≠ Some c) ∧
          (∀ hd, cs_receiver st ≠ RHave c hd))).
  { intros (J1 & J2 & _). by split. }
  revert st Hrun. apply rtc_ind_r.
  - split; [|split]; simpl; [|done|done].
    intros k c Hk. by rewrite lookup_empty in Hk.
  - intros st st' _ Hstep IH. by apply (filed_step st st').
Qed.

(** Call 0 is sent, and the header of its response is read. *)
Lemma response_witness :
  ∃ st c hd, rtc cstep (cinit 1%positive) st ∧ cs_receiver st = RHave c hd ∧
    ∃ cl, cs_calls st !! c = Some cl ∧ CSeq cl = Seq hd.
Proof.
  assert (Hrun : ∃ st, rtc cstep (cinit 1%positive) st ∧
            cs_receiver st = RHave 0%nat (mkHeader "Foo.Sum" 1 "")).
  { eexists. split.
    - eapply rtc_l; [apply (step_go _ 0%nat "Foo.Sum"); reflexivity|].
      eapply rtc_l; [eapply step_register_ok; reflexivity|].
      eapply rtc_l; [eapply step_write_ok; reflexivity|].
      eapply rtc_l;
        [apply (step_header _ (mkHeader "Foo.Sum" 1 "") None); reflexivity|].
      apply rtc_refl.
    - reflexivity. }
  destruct Hrun as (st & Hrun & Hr).
  exists st, 0%nat, (mkHeader "Foo.Sum" 1 "").
  split; [exact Hrun|]. split; [exact Hr|].
  exact (proj2 (a_response_completes_the_call_that_carries_its_number
                  1%positive st Hrun) 0%nat (mkHeader "Foo.Sum" 1 "") Hr).
Defined.

Lemma created_Some st c : created st c = 1%nat → is_Some (cs_calls st !! c).
Proof. unfold created. by destruct (cs_calls st !! c). Qed.

Lemma numbered_step st st' :
  client_inv st → cstep st st' →
  (Z.of_nat (length (cs_registered st)) < 2 ^ 64 - 1 →
   ∀ i c, reverse (cs_registered st) !! i = Some c →
     ∃ cl, cs_calls st !! c = Some cl ∧ CSeq cl = 1 + Z.of_nat i) →
  (Z.of_nat (length (cs_registered st')) < 2 ^ 64 - 1 →
   ∀ i c, reverse (cs_registered st') !! i = Some c →
     ∃ cl, cs_calls st' !! c = Some cl ∧ CSeq cl = 1 + Z.of_nat i).
Proof.
  intros (H1 & H2 & H3 & H4 & H5 & H6) Hstep N.
  client_steps Hstep; intros Hlen i c Hi.
  - destruct (N Hlen i c Hi) as (cl & Hc & Hq). exists cl.
    rewrite lookup_insert_ne; [done|]. intros ->. congruence.
  - destruct (registerCall_ok _ _ _ _ _ _ Hreg)
      as (_ & -> & _ & _ & _ & ->).
    rewrite Hs in H5. simpl length in Hlen.
    assert (Hlen0 : Z.of_nat (length (cs_registered st)) < 2 ^ 64 - 1) by lia.
    destruct (H6 Hlen0) as (Hseq & _ & _).
    rewrite reverse_cons in Hi.
    apply lookup_app_Some in Hi as [Hi|[Hge Hi]].
    + destruct (N Hlen0 i c Hi) as (cl & Hc & Hq). exists cl.
      rewrite lookup_alter_ne; [done|]. intros <-. apply H5.
      apply elem_of_reverse. by eapply list_elem_of_lookup_2.
    + apply list_lookup_singleton_Some in Hi as [Hi <-].
      rewrite length_reverse in Hge, Hi.
      assert (Hex : is_Some (cs_calls st !! call)).
      { apply created_Some. specialize (H1 call). unfold owed in H1.
        rewrite Hs in H1. simpl in H1. rewrite decide_True in H1 by done.
        unfold created in *. destruct (cs_calls st !! call); [done|lia]. }
      destruct Hex as [cl0 Hcl0].
      exists (set_CSeq (seq (cs_client st)) cl0).
      rewrite lookup_alter_eq, Hcl0. split; [done|]. simpl. lia.
  - destruct (registerCall_err _ _ _ _ _ _ _ Hreg) as [-> ->].
    by apply N.
  - by apply CSeq_alter, N.
  - by apply N.
  - by apply N.
  - by apply N.
  - by apply CSeq_alter, N.
  - by apply N.
  - by apply N.
  - apply CSeq_alter; [apply CSeq_delivered_error|]. by apply N.
  - simpl. by apply CSeq_foldr_alter, N.
  - by apply N.
Qed.

(** Sequence numbers are given in the order of registration, from 1: as
    long as fewer than 2^64 - 1 calls were registered on the connection,
    the call registered as the (i+1)-th carries the number i + 1, whatever
    happened to it and to the others since. *)
Theorem registered_calls_are_numbered_from_one
    (opt : positive) (st : cstate) :
  rtc cstep (cinit opt) st →
  Z.of_nat (length (cs_registered st)) < 2 ^ 64 - 1 →
  ∀ i c, reverse (cs_registered st) !! i = Some c →
    ∃ cl, cs_calls st !! c = Some cl ∧ CSeq cl = 1 + Z.of_nat i.
Proof.
  revert st.
  apply (rtc_ind_r
    (λ st, Z.of_nat (length (cs_registered st)) < 2 ^ 64 - 1 →
           ∀ i c, reverse (cs_registered st) !! i = Some c →
             ∃ cl, cs_calls st !! c = Some cl ∧ CSeq cl = 1 + Z.of_nat i)).
  - intros _ i c Hi. by destruct i.
  - intros st st' Hrun Hstep IH.
    by apply (numbered_step st st' (reachable_inv opt st Hrun) Hstep).
Qed.

(** Two calls are sent; the write of the first one fails. *)
Lemma numbered_witness :
  ∃ st, rtc cstep (cinit 1%positive) st ∧
    cs_registered st = [1; 0]%nat ∧
    ∃ cl, cs_calls st !! 1%nat = Some cl ∧ CSeq cl = 1 + Z.of_nat 1.
Proof.
  assert (Hrun : ∃ st, rtc cstep (cinit 1%positive) st ∧
            cs_registered st = [1; 0]%nat).
  { eexists. split.
    - client_run ltac:(apply (step_go _ 0%nat "Foo.Sum"); reflexivity).
      client_run ltac:(eapply step_register_ok; reflexivity).
      change (uint64_wrap (1 + 1)) with 2.
      client_run ltac:(apply (step_write_err _ 0%nat 1 "broken pipe");
                       reflexivity).
      client_run ltac:(eapply step_evict; reflexivity).
      client_run ltac:(eapply step_evict_done; reflexivity).
      client_run ltac:(apply (step_go _ 1%nat "Bar.Sum"); reflexivity).
      client_run ltac:(eapply step_register_ok; reflexivity).
      apply rtc_refl.
    - reflexivity. }
  destruct Hrun as (st & Hrun & Hreg). exists st.
  split; [exact Hrun|]. split; [exact Hreg|].
  refine (registered_calls_are_numbered_from_one 1%positive st Hrun _
            1%nat 1%nat _).
  - rewrite Hreg. simpl. lia.
  - by rewrite Hreg.
Defined.

End client_numbers.

(** ** The server: the worker after a timeout *)

Section worker_after_timeout.
Import go codec reflect gpmd.

Variable fmt : Z → string.

Lemma blocked_worker_step req timeout st st' :
  hstep fmt req timeout st st' →
  hs_handler st = HReturned →
  hs_worker st = WCall ∨ (∃ e, hs_worker st = WCalled e) →
  hs_handler st' = HReturned ∧
  (hs_worker st' = WCall ∨ (∃ e, hs_worker st' = WCalled e)) ∧
  hs_cc st' = hs_cc st ∧ hs_h st' = hs_h st.
Proof.
  intros Hstep Hh Hw.
  inversion Hstep as
    [st0 s0 m0 a0 r0 Hwk Hs0 Hm0 Ha0 Hr0 | st0 Hh0 | st0 err Hwk Hh0
    | st0 e Hwk | st0 Hwk | st0 Hwk Hh0 | st0 Hh0]; subst;
    cbn [hs_h hs_cc hs_worker hs_handler];
    try (destruct Hw as [Hw|[e' Hw]]; congruence);
    try congruence.
  - split; [done|]. split; [right; by eexists|done].
  - destruct Hh0; congruence.
Qed.

(** When [handleRequest] returns because the timer fired, its worker
    goroutine never ends: it calls the method if it has not yet, then
    stays blocked on [called <-], which nobody receives from any more; it
    writes nothing, so the timeout response remains the only one. *)
Theorem worker_is_left_blocked_after_a_timeout
    (req : request) (timeout : Z) (cc : Codec) (st st' : hstate) :
  rtc (hstep fmt req timeout) (hinit req cc) st →
  hs_handler st = HReturned → hs_worker st ≠ WReturned →
  rtc (hstep fmt req timeout) st st' →
  hs_handler st' = HReturned ∧
  (hs_worker st' = WCall ∨ ∃ e, hs_worker st' = WCalled e) ∧
  hs_cc st' = hs_cc st ∧ hs_h st' = hs_h st.
Proof.
  intros Hrun Hh Hw Hrun'.
  destruct (hstep_phases fmt req timeout cc st Hrun)
    as (extra & _ & _ & _ & _ & Hphase).
  assert (Hblocked : hs_worker st = WCall ∨ ∃ e, hs_worker st = WCalled e).
  { destruct Hphase as [(?&?&?&?)|[(?&?&?)|[(?&?&?)|(_&[?|[?|?]]&_)]]];
      try congruence; [by left|by right]. }
  clear Hrun Hphase Hw. revert st' Hrun'. apply rtc_ind_r; [done|].
  intros st1 st2 _ Hstep (IH1 & IH2 & IH3 & IH4).
  destruct (blocked_worker_step req timeout st1 st2 Hstep IH1 IH2)
    as (H1 & H2 & H3 & H4).
  split; [done|]. split; [done|]. split; congruence.
Qed.

End worker_after_timeout.

Section worker_after_timeout_witness.
Import go codec reflect gpmd.

(** The timer fires first; the method is called afterwards, and the worker
    stays with its result. *)
Lemma blocked_worker_witness :
  ∃ st', hs_handler st' = HReturned ∧
         (hs_worker st' = WCall ∨ ∃ e, hs_worker st' = WCalled e) ∧
         hs_replyv st' = Some (VPtr (VInt 7)).
Proof.
  pose (req := main.Foo_Sum_request (VStruct [VInt 3; VInt 4])).
  pose (hd := set_Error (handle_timeout_error (λ _, "1s") 1000000000)
                (mkHeader "Foo.Sum" 1 "")).
  pose (st := {| hs_h := hd; hs_replyv := Some (New main.int_type);
                 hs_mType := Some main.Foo_Sum_methodType;
                 hs_cc := sendResponse (mkCodec [] None []) hd invalidRequest;
                 hs_worker := WCall; hs_handler := HReturned |}).
  pose (st' := {| hs_h := hd; hs_replyv := Some (VPtr (VInt 7));
                  hs_mType := Some {| method := main.Foo_Sum;
                                      ArgType := main.Args_type;
                                      ReplyType := main.ptr_to main.int_type;
                                      numCalls := 1 |};
                  hs_cc := sendResponse (mkCodec [] None []) hd invalidRequest;
                  hs_worker := WCalled None; hs_handler := HReturned |}).
  exists st'.
  destruct (worker_is_left_blocked_after_a_timeout (λ _, "1s") req
              1000000000 (mkCodec [] None []) st st') as (H1 & H2 & _).
  - eapply rtc_l; [apply step_start; reflexivity|].
    eapply rtc_l; [apply step_timer; reflexivity|].
    apply rtc_refl.
  - reflexivity.
  - discriminate.
  - eapply rtc_l; [|apply rtc_refl].
    exact (step_call (λ _, "1s") req 1000000000 st
             main.Foo_service main.Foo_Sum_methodType
             (VStruct [VInt 3; VInt 4]) (New main.int_type)
             eq_refl eq_refl eq_refl eq_refl eq_refl).
  - split; [exact H1|]. split; [exact H2|reflexivity].
Defined.

End worker_after_timeout_witness.
